(** * linkedin_scraper: a shallow embedding of [main.py] and [routes.py]

    The repository builds one LinkedIn job-search URL, hands it to a
    Playwright crawler, and registers two request handlers: the default
    handler collects the job links of a results page and queues them under
    the label [job_listing]; the [job_listing] handler reads three text
    fields of a job page, removes their whitespace and pushes one record.

    Python values are modelled as follows.
    - A [str] is the list of its Unicode code points ([N]); [bytes] is a
      list of octets.  [str.encode('utf-8')] is strict and fails on a
      surrogate code point, as in CPython.
    - A [dict] literal is an association list in insertion order.
    - An exception is a value of [exn]; a computation that may raise
      returns [result A = exn + A].
    - Every awaited call on the page, the context or the crawler is an
      operation of a signature; a coroutine is a finite tree of such
      operations ([prog]), run against an environment that answers them.
    - What a library decides by rules of its own is a parameter: which
      URLs [Request.from_url] accepts, the unique key of a request, and
      the reference resolution of [urljoin]. *)

From Stdlib Require Import NArith ZArith List String Ascii Bool Lia.
From ExtLib Require Import Structures.Monad Structures.MonadExc.
From ExtLib Require Import Data.Monads.EitherMonad.
Import ListNotations.
Import MonadNotation.
Local Open Scope monad_scope.
Local Open Scope N_scope.

(** ** Python strings, bytes and exceptions *)

Definition char := N.
Definition str := list char.
Definition bytes := list N.

(** A source literal (ASCII only) as a [str]. *)
Definition lit (s : string) : str := map N_of_ascii (list_ascii_of_string s).

Inductive exn : Type :=
| UnicodeEncodeError (c : char)
| TypeError
| PlaywrightTimeoutError
| PlaywrightError
| ValidationError.

Definition result : Type -> Type := sum exn.

(** The code points a Python [str] can hold. *)
Definition valid_str (s : str) : Prop := Forall (fun c => c < 0x110000) s.

Module Unicode.

Definition is_surrogate (c : char) : bool := (0xD800 <=? c) && (c <=? 0xDFFF).

(** One code point in UTF-8; [None] where the strict codec refuses. *)
Definition utf8_encode_char (c : char) : option bytes :=
  if c <? 0x80 then Some [c]
  else if c <? 0x800 then Some [0xC0 + c / 64; 0x80 + c mod 64]
  else if c <? 0x10000 then
    if is_surrogate c then None
    else Some [0xE0 + c / 4096; 0x80 + (c / 64) mod 64; 0x80 + c mod 64]
  else if c <? 0x110000 then
    Some [0xF0 + c / 262144; 0x80 + (c / 4096) mod 64;
          0x80 + (c / 64) mod 64; 0x80 + c mod 64]
  else None.

(** [s.encode('utf-8', 'strict')] *)
Fixpoint encode (s : str) : result bytes :=
  match s with
  | [] => ret []
  | c :: s' =>
      match utf8_encode_char c with
      | None => raise (UnicodeEncodeError c)
      | Some bs => rest <- encode s' ;; ret (bs ++ rest)
      end
  end.

Definition is_cont (b : N) : bool := (0x80 <=? b) && (b <? 0xC0).

(** [bs.decode('utf-8', 'strict')]: shortest forms only, no surrogates,
    nothing above U+10FFFF. *)
Fixpoint decode (bs : bytes) : option str :=
  match bs with
  | [] => Some []
  | b0 :: r0 =>
      if b0 <? 0x80 then option_map (cons b0) (decode r0)
      else if b0 <? 0xC2 then None
      else if b0 <? 0xE0 then
        match r0 with
        | b1 :: r1 =>
            if is_cont b1
            then option_map (cons ((b0 - 0xC0) * 64 + (b1 - 0x80))) (decode r1)
            else None
        | _ => None
        end
      else if b0 <? 0xF0 then
        match r0 with
        | b1 :: b2 :: r2 =>
            let c := (b0 - 0xE0) * 4096 + (b1 - 0x80) * 64 + (b2 - 0x80) in
            if is_cont b1 && is_cont b2 && (0x800 <=? c) && negb (is_surrogate c)
            then option_map (cons c) (decode r2)
            else None
        | _ => None
        end
      else if b0 <? 0xF5 then
        match r0 with
        | b1 :: b2 :: b3 :: r3 =>
            let c := (b0 - 0xF0) * 262144 + (b1 - 0x80) * 4096
                     + (b2 - 0x80) * 64 + (b3 - 0x80) in
            if is_cont b1 && is_cont b2 && is_cont b3
               && (0x10000 <=? c) && (c <? 0x110000)
            then option_map (cons c) (decode r3)
            else None
        | _ => None
        end
      else None
  end.

(** The code points [str.isspace] accepts, which are those the regular
    expression class [\s] matches on a [str] pattern. *)
Definition whitespace : list char :=
  [0x9; 0xA; 0xB; 0xC; 0xD; 0x1C; 0x1D; 0x1E; 0x1F; 0x20; 0x85; 0xA0;
   0x1680; 0x2000; 0x2001; 0x2002; 0x2003; 0x2004; 0x2005; 0x2006;
   0x2007; 0x2008; 0x2009; 0x200A; 0x2028; 0x2029; 0x202F; 0x205F; 0x3000].

Definition isspace (c : char) : bool := existsb (N.eqb c) whitespace.

End Unicode.


(** ** [urllib.parse] *)

Module UrlParse.

Definition mem (x : N) (l : list N) : bool := existsb (N.eqb x) l.

(** [_ALWAYS_SAFE] *)
Definition always_safe : list N :=
  lit "ABCDEFGHIJKLMNOPQRSTUVWXYZabcdefghijklmnopqrstuvwxyz0123456789_.-~".

Definition hex_digit (n : N) : char :=
  nth (N.to_nat n) (lit "0123456789ABCDEF") 0.

(** ['%{:02X}'.format(b)] *)
Definition percent (b : N) : str := [0x25; hex_digit (b / 16); hex_digit (b mod 16)].

(** [_Quoter.__missing__] *)
Definition quoter (safe : list N) (b : N) : str :=
  if mem b (always_safe ++ safe) then [b] else percent b.

Definition quote_from_bytes (bs : bytes) (safe : str) : str :=
  match bs with
  | [] => []
  | _ =>
      let safe := filter (fun c => c <? 128) safe in
      if forallb (fun b => mem b (always_safe ++ safe)) bs
      then bs
      else List.concat (map (quoter safe) bs)
  end.

Definition quote (string safe : str) : result str :=
  match string with
  | [] => ret string
  | _ => bs <- Unicode.encode string ;; ret (quote_from_bytes bs safe)
  end.

(** [s.replace(old, new)] for one-character [old] and [new] *)
Definition replace (old new : char) (s : str) : str :=
  map (fun c => if c =? old then new else c) s.

Definition quote_plus (string safe : str) : result str :=
  if negb (mem 0x20 string) then quote string safe
  else string' <- quote string (safe ++ [0x20]) ;; ret (replace 0x20 0x2B string').

(** [sep.join(l)] *)
Fixpoint join (sep : str) (l : list str) : str :=
  match l with
  | [] => []
  | [x] => x
  | x :: l' => x ++ sep ++ join sep l'
  end.

(** The loop of [urlencode] over the items of the query (no [doseq]). *)
Fixpoint urlencode_items (query : list (str * str)) : result (list str) :=
  match query with
  | [] => ret []
  | (k, v) :: query' =>
      k' <- quote_plus k [] ;;
      v' <- quote_plus v [] ;;
      l <- urlencode_items query' ;;
      ret ((k' ++ lit "=" ++ v') :: l)
  end.

Definition urlencode (query : list (str * str)) : result str :=
  l <- urlencode_items query ;; ret (join (lit "&") l).

Section Join.
(** The reference resolution of RFC 3986 that [urljoin] performs when
    both arguments are non-empty is left as a parameter. *)
Variable resolve : str -> str -> str.

Definition urljoin (base url : str) : str :=
  match base with
  | [] => url
  | _ => match url with
         | [] => base
         | _ => resolve base url
         end
  end.
End Join.

(** *** Decoding, used to state what a query string contains *)

Definition hex_value (c : char) : option N :=
  if (0x30 <=? c) && (c <=? 0x39) then Some (c - 0x30)
  else if (0x41 <=? c) && (c <=? 0x46) then Some (c - 0x41 + 10)
  else if (0x61 <=? c) && (c <=? 0x66) then Some (c - 0x61 + 10)
  else None.

(** The scan of [unquote_to_bytes]: [%XX] with two hex digits is one
    octet, any other octet stands for itself. *)
Fixpoint percent_decode (bs : bytes) : bytes :=
  match bs with
  | [] => []
  | b :: r =>
      if b =? 0x25 then
        match r with
        | h :: l :: r' =>
            match hex_value h, hex_value l with
            | Some x, Some y => (16 * x + y) :: percent_decode r'
            | _, _ => b :: percent_decode r
            end
        | _ => b :: percent_decode r
        end
      else b :: percent_decode r
  end.

(** [unquote_to_bytes(s).decode('utf-8')] *)
Definition unquote (s : str) : option str :=
  match Unicode.encode s with
  | inl _ => None
  | inr bs => Unicode.decode (percent_decode bs)
  end.

Definition unquote_plus (s : str) : option str := unquote (replace 0x2B 0x20 s).

(** [s.split(sep)] for a one-character separator *)
Fixpoint split (sep : char) (s : str) : list str :=
  match s with
  | [] => [[]]
  | c :: s' =>
      if c =? sep then [] :: split sep s'
      else match split sep s' with
           | w :: ws => (c :: w) :: ws
           | [] => [[c]]
           end
  end.

(** [s.split(sep, 1)]: the text before the first [sep] and, when there
    is one, the text after it. *)
Fixpoint split1 (sep : char) (s : str) : str * option str :=
  match s with
  | [] => ([], None)
  | c :: s' =>
      if c =? sep then ([], Some s')
      else let (a, b) := split1 sep s' in (c :: a, b)
  end.

(** [parse_qsl(qs, keep_blank_values=True)], decoding strictly: the
    fields of the query in order, names and values unquoted. *)
Fixpoint parse_fields (fields : list str) : option (list (str * str)) :=
  match fields with
  | [] => Some []
  | [] :: fields' => parse_fields fields'
  | name_value :: fields' =>
      let (n, v) := split1 0x3D name_value in
      match unquote_plus n, unquote_plus (match v with Some v => v | None => [] end),
            parse_fields fields' with
      | Some name, Some value, Some r => Some ((name, value) :: r)
      | _, _, _ => None
      end
  end.

Definition parse_qsl (qs : str) : option (list (str * str)) :=
  match qs with
  | [] => Some []
  | _ => parse_fields (split 0x26 qs)
  end.

(** The query component of a URL as [urlsplit] finds it: after the
    first [?] of what precedes the first [#]. *)
Definition urlsplit_query (url : str) : str :=
  match snd (split1 0x3F (fst (split1 0x23 url))) with
  | Some q => q
  | None => []
  end.

(** [s.startswith(prefix)] *)
Fixpoint startswith (prefix s : str) : bool :=
  match prefix, s with
  | [], _ => true
  | p :: prefix', c :: s' => (p =? c) && startswith prefix' s'
  | _ :: _, [] => false
  end.

End UrlParse.

(** ** [re.sub] for a pattern that is one repeated character class *)

Module Re.

Inductive class_item : Type :=
| Category_space              (* [\s] *)
| Literal (c : char).

Definition item_matches (c : char) (i : class_item) : bool :=
  match i with
  | Category_space => Unicode.isspace c
  | Literal d => c =? d
  end.

Definition class_matches (cls : list class_item) (c : char) : bool :=
  existsb (item_matches c) cls.

(** Scan for the pattern [[cls]+]: the greedy match at a position takes the
    whole run of class characters, and is replaced by [repl] once;
    [in_match] tells that the run has begun. *)
Fixpoint sub_scan (cls : list class_item) (repl : str) (in_match : bool)
  (s : str) : str :=
  match s with
  | [] => []
  | c :: s' =>
      if class_matches cls c
      then (if in_match then [] else repl) ++ sub_scan cls repl true s'
      else c :: sub_scan cls repl false s'
  end.

(** [re.sub(pattern, repl, string)]; a [string] that is [None] is a
    [TypeError]. *)
Definition sub (cls : list class_item) (repl : str) (string : option str)
  : result str :=
  match string with
  | None => raise TypeError
  | Some s => ret (sub_scan cls repl false s)
  end.

End Re.

(** ** Coroutines over a signature of awaited operations *)

Record Sig : Type := { op : Type; ans : op -> Type }.

Inductive prog (S : Sig) (A : Type) : Type :=
| Ret (a : A)
| Raise (e : exn)
| Await (o : op S) (k : ans S o -> prog S A).

Arguments Ret {S A} a.
Arguments Raise {S A} e.
Arguments Await {S A} o k.

Fixpoint pbind {S : Sig} {A B : Type} (p : prog S A) (f : A -> prog S B)
  : prog S B :=
  match p with
  | Ret a => f a
  | Raise e => Raise e
  | Await o k => Await o (fun x => pbind (k x) f)
  end.

#[global] Instance Monad_prog (S : Sig) : Monad (prog S) :=
  {| ret := @Ret S; bind := @pbind S |}.

(** [await o] *)
Definition await {S : Sig} (o : op S) : prog S (ans S o) := Await o Ret.

(** A pure computation that may raise, inside a coroutine. *)
Definition lift {S : Sig} {A : Type} (r : result A) : prog S A :=
  match r with
  | inl e => Raise e
  | inr a => Ret a
  end.

(** An environment answers each operation with a value or an exception
    and may change its state. *)
Definition env (S : Sig) (W : Type) : Type :=
  forall o : op S, W -> result (ans S o) * W.

Record run (S : Sig) (W A : Type) : Type :=
  { outcome : result A;     (* returned value or propagated exception *)
    final : W;              (* state of the environment afterwards *)
    calls : list (op S) }.  (* operations issued, in order *)

Arguments outcome {S W A} r.
Arguments final {S W A} r.
Arguments calls {S W A} r.

(** The run [r] preceded by the operation [o]. *)
Definition after {S : Sig} {W A : Type} (o : op S) (r : run S W A) : run S W A :=
  {| outcome := outcome r; final := final r; calls := o :: calls r |}.

Fixpoint exec {S : Sig} {W A : Type} (h : env S W) (p : prog S A) (w : W)
  : run S W A :=
  match p with
  | Ret a => {| outcome := inr a; final := w; calls := [] |}
  | Raise e => {| outcome := inl e; final := w; calls := [] |}
  | Await o k =>
      match h o w with
      | (inl e, w') => {| outcome := inl e; final := w'; calls := [o] |}
      | (inr x, w') => after o (exec h (k x) w')
      end
  end.

(** ** The crawler library as the handlers see it *)

Record Request : Type :=
  { url : str; label : option str; loaded_url : option str }.

Section Validation.
(** [Request.from_url] validates its URL: one that is not a valid http or
    https URL (the empty string, a [javascript:] link) is refused with a
    validation error.  Which URLs pass is the library's own check, taken
    as a parameter. *)
Variable valid_http_url : str -> bool.

(** [Request.from_url(url, label=label)] *)
Definition Request_from_url (u : str) (l : option str) : result Request :=
  if valid_http_url u
  then ret {| url := u; label := l; loaded_url := None |}
  else raise ValidationError.
End Validation.

(** [[f(x) for x in l]], where [f] may raise *)
Fixpoint comprehension {A B : Type} (f : A -> result B) (l : list A)
  : result (list B) :=
  match l with
  | [] => ret []
  | x :: l' => y <- f x ;; ys <- comprehension f l' ;; ret (y :: ys)
  end.

Inductive pyval : Type :=
| PyNone
| PyStr (s : str).

Definition pyval_of (o : option str) : pyval :=
  match o with
  | None => PyNone
  | Some s => PyStr s
  end.

(** A pushed [dict], in insertion order. *)
Definition item : Type := list (str * pyval).

Inductive context_op : Type :=
| page_wait_for_load_state (state : str)
| locator_evaluate_all (selector expression : str)
| locator_text_content (selector : str)
| context_add_requests (requests : list Request)
| context_push_data (data : item).

Definition context_ans (o : context_op) : Type :=
  match o with
  | page_wait_for_load_state _ => unit
  | locator_evaluate_all _ _ => list str
  | locator_text_content _ => option str
  | context_add_requests _ => unit
  | context_push_data _ => unit
  end.

Canonical Structure contextSig : Sig := {| op := context_op; ans := context_ans |}.

Record PlaywrightCrawlingContext : Type := { request : Request }.

(** What the browser page of one request answers to each query. *)
Record Page : Type :=
  { load_state : str -> result unit;
    evaluate_all : str -> str -> result (list str);
    text_content : str -> result (option str) }.

(** The page of the request being handled, the pending-request queue and
    the result sink of the crawler. *)
Record Runtime : Type :=
  { page : Page;
    request_queue : list Request;
    dataset : list item }.

Section Queue.
(** The queue knows a request by its unique key, which the library
    computes from the URL (after normalizing it); the computation is
    taken as a parameter. *)
Variable compute_unique_key : str -> str.

Definition unique_key (r : Request) : str := compute_unique_key (url r).

(** The requests of [rs] that a queue holding the keys [seen] takes in: a
    request whose key is held already, or was taken in earlier in [rs],
    is dropped. *)
Fixpoint accepted (seen : list str) (rs : list Request) : list Request :=
  match rs with
  | [] => []
  | r :: rs' =>
      if in_dec (list_eq_dec N.eq_dec) (unique_key r) seen
      then accepted seen rs'
      else r :: accepted (unique_key r :: seen) rs'
  end.

(** The page answers the queries; [add_requests] appends to the queue the
    requests whose unique key it does not hold yet, [push_data] appends
    to the sink, and neither raises. *)
Definition crawlee : env contextSig Runtime :=
  fun o w =>
    match o as o' return result (context_ans o') * Runtime with
    | page_wait_for_load_state st => (load_state (page w) st, w)
    | locator_evaluate_all sel e => (evaluate_all (page w) sel e, w)
    | locator_text_content sel => (text_content (page w) sel, w)
    | context_add_requests rs =>
        (inr tt, {| page := page w;
                    request_queue :=
                      request_queue w
                      ++ accepted (map unique_key (request_queue w)) rs;
                    dataset := dataset w |})
    | context_push_data d =>
        (inr tt, {| page := page w;
                    request_queue := request_queue w;
                    dataset := dataset w ++ [d] |})
    end.
End Queue.

(** ** routes.py *)

Module Routes.
Section Routes.
Variable valid_http_url : str -> bool.

Definition results_links : str := lit "ul.jobs-search__results-list a".
Definition links_to_hrefs : str := lit "links => links.map(link => link.href)".
Definition title_locator : str :=
  lit "div.top-card-layout__entity-info h1.top-card-layout__title".
Definition company_locator : str := lit "span.topcard__flavor a".
Definition time_locator : str :=
  lit "div.topcard__flavor-row span.posted-time-ago__text".

Definition default_handler (context : PlaywrightCrawlingContext)
  : prog contextSig unit :=
  hrefs <- await (locator_evaluate_all results_links links_to_hrefs) ;;
  requests <- lift (comprehension
                      (fun rec => Request_from_url valid_http_url rec
                                    (Some (lit "job_listing")))
                      hrefs) ;;
  await (context_add_requests requests).

(** The pattern [[\s\n]+] *)
Definition whitespace_class : list Re.class_item :=
  [Re.Category_space; Re.Literal 0xA].

Definition listing_handler (context : PlaywrightCrawlingContext)
  : prog contextSig unit :=
  await (page_wait_for_load_state (lit "load")) ;;
  job_title <- await (locator_text_content title_locator) ;;
  company_name <- await (locator_text_content company_locator) ;;
  time_of_posting <- await (locator_text_content time_locator) ;;
  title' <- lift (Re.sub whitespace_class [] job_title) ;;
  company' <- lift (Re.sub whitespace_class [] company_name) ;;
  time' <- lift (Re.sub whitespace_class [] time_of_posting) ;;
  await (context_push_data
           [(lit "title", PyStr title');
            (lit "Company name", PyStr company');
            (lit "Time of posting", PyStr time');
            (lit "url", pyval_of (loaded_url (request context)))]).

(** [router]: [default_handler] is registered as the default and
    [listing_handler] under the label [job_listing].  A call dispatches on
    the label of the request: to the handler registered under it, and to
    the default when the request has no label or none is registered under
    it. *)
Definition router (context : PlaywrightCrawlingContext) : prog contextSig unit :=
  match label (request context) with
  | None => default_handler context
  | Some l =>
      if list_eq_dec N.eq_dec l (lit "job_listing")
      then listing_handler context
      else default_handler context
  end.

End Routes.
End Routes.

(** ** main.py *)

Inductive crawler_op : Type :=
| crawler_run (requests : list str)
| crawler_export_data (path : str).

Canonical Structure crawlerSig : Sig := {| op := crawler_op; ans := fun _ => unit |}.

Module Main.
Section Main.

Variable resolve : str -> str -> str.

(** Lines 8 to 25 of [main]: the URL the crawl starts from. *)
Definition encoded_url (title location : str) : result str :=
  let base_url := lit "https://www.linkedin.com/jobs/search" in
  let params :=
    [(lit "keywords", title);
     (lit "location", location);
     (lit "trk", lit "public_jobs_jobs-search-bar_search-submit");
     (lit "position", lit "1");
     (lit "pageNum", lit "0")] in
  encoded_params <- UrlParse.urlencode params ;;
  let query_string := lit "?" ++ encoded_params in
  ret (UrlParse.urljoin resolve base_url [] ++ query_string).

Definition main (title location data_name : str) : prog crawlerSig unit :=
  encoded_url <- lift (encoded_url title location) ;;
  await (crawler_run [encoded_url]) ;;
  let output_file := data_name ++ lit ".csv" in
  await (crawler_export_data output_file).

End Main.
End Main.

(** ** What the claims speak of *)

(** The maximal runs of characters that are not separators, in order;
    [cur] is the run being read. *)
Fixpoint runs_outside (sep : char -> bool) (cur s : str) : list str :=
  match s with
  | [] => match cur with [] => [] | _ => [cur] end
  | c :: s' =>
      if sep c
      then match cur with
           | [] => runs_outside sep [] s'
           | _ => cur :: runs_outside sep [] s'
           end
      else runs_outside sep (cur ++ [c]) s'
  end.

(** The maximal runs of non-whitespace characters, whitespace being what
    [str.isspace] accepts (space, tab, newline and the like). *)
Definition non_whitespace_runs (s : str) : list str :=
  runs_outside Unicode.isspace [] s.

Definition whitespace_free (s : str) : Prop :=
  Forall (fun c => Re.class_matches Routes.whitespace_class c = false) s.

Definition str_eqb (a b : str) : bool :=
  if list_eq_dec N.eq_dec a b then true else false.

(** [d[key]] *)
Fixpoint lookup (key : str) (d : item) : option pyval :=
  match d with
  | [] => None
  | (k, v) :: d' => if str_eqb key k then Some v else lookup key d'
  end.

Definition failed {A : Type} (r : result A) : Prop := exists e, r = inl e.

Definition is_read (o : context_op) : bool :=
  match o with
  | locator_text_content _ => true
  | _ => false
  end.

Definition is_push (o : context_op) : bool :=
  match o with
  | context_push_data _ => true
  | _ => false
  end.

(** Reads come first in [l]: once another operation is met, no read
    follows. *)
Fixpoint reads_first (l : list context_op) : bool :=
  match l with
  | [] => true
  | o :: l' => if is_read o then reads_first l' else negb (existsb is_read l')
  end.

(** The text left when the whitespace runs of [s] are taken out. *)
Definition normalized (s : str) : str := List.concat (non_whitespace_runs s).

(** The state after the handler pushed [new] records. *)
Definition emitted (w w' : Runtime) (new : list item) : Prop :=
  dataset w' = dataset w ++ new.

(** No code point of [s] is a surrogate: [s] can be encoded. *)
Definition no_surrogates (s : str) : Prop :=
  Forall (fun c => Unicode.is_surrogate c = false) s.

(** What [quote_plus] writes for one octet. *)
Definition quoted_octet (b : N) : str :=
  if UrlParse.mem b UrlParse.always_safe then [b]
  else if b =? 0x20 then [0x2B]
  else UrlParse.percent b.

(** [f] is the field [urlencode] writes for the pair [kv]. *)
Definition field_of (kv : str * str) (f : str) : Prop :=
  exists bk bv,
    Unicode.encode (fst kv) = inr bk
    /\ Unicode.encode (snd kv) = inr bv
    /\ f = flat_map quoted_octet bk ++ 0x3D :: flat_map quoted_octet bv.

Definition is_export (o : crawler_op) : bool :=
  match o with
  | crawler_export_data _ => true
  | crawler_run _ => false
  end.

(** The numbers below [k]. *)
Definition below (k : nat) : list N := map N.of_nat (seq 0 k).

(** The characters [quote_plus] can write. *)
Definition quoted_char (c : char) : bool :=
  UrlParse.mem c (UrlParse.always_safe ++ [0x2B; 0x25]).

(** [q] is one plain character or one [%XX] escape that [percent_decode]
    reads as the octet [b]. *)
Definition stands_for (b : N) (q : str) : bool :=
  match q with
  | [c] => negb (c =? 0x25) && (c =? b)
  | [p; h; l] =>
      (p =? 0x25)
      && match UrlParse.hex_value h, UrlParse.hex_value l with
         | Some x, Some y => 16 * x + y =? b
         | _, _ => false
         end
  | _ => false
  end.

(** The facts about one octet that the proofs check on all 256 of them. *)
Definition octet_ok (b : N) : bool :=
  str_eqb (UrlParse.replace 0x20 0x2B (UrlParse.quoter [0x20] b)) (quoted_octet b)
  && ((b =? 0x20) || str_eqb (UrlParse.quoter [] b) (quoted_octet b))
  && stands_for b (UrlParse.replace 0x2B 0x20 (quoted_octet b))
  && forallb quoted_char (quoted_octet b).

(** *** Example pages *)

(** A job page that loads and shows all three texts. *)
Definition job_page : Page :=
  {| load_state := fun _ => inr tt;
     evaluate_all := fun _ _ => inr [];
     text_content := fun sel =>
       if str_eqb sel Routes.title_locator
       then inr (Some (lit "Senior" ++ [0xA] ++ lit "  Engineer"))
       else if str_eqb sel Routes.company_locator
       then inr (Some ([0xA] ++ lit "  Acme Corp " ++ [0xA]))
       else inr (Some (lit " 3 days ago")) |}.

(** A job page without a title element: the read times out. *)
Definition untitled_page : Page :=
  {| load_state := fun _ => inr tt;
     evaluate_all := fun _ _ => inr [];
     text_content := fun sel =>
       if str_eqb sel Routes.title_locator then inl PlaywrightTimeoutError
       else inr (Some (lit "Acme")) |}.

(** A results page with three anchors, two of them to the same job. *)
Definition results_page : Page :=
  {| load_state := fun _ => inr tt;
     evaluate_all := fun _ _ =>
       inr [lit "https://www.linkedin.com/jobs/view/1";
            lit "https://www.linkedin.com/jobs/view/2";
            lit "https://www.linkedin.com/jobs/view/1"];
     text_content := fun _ => inl PlaywrightTimeoutError |}.

(** A results page whose list is empty. *)
Definition empty_results_page : Page :=
  {| load_state := fun _ => inr tt;
     evaluate_all := fun _ _ => inr [];
     text_content := fun _ => inl PlaywrightTimeoutError |}.

Definition fresh (p : Page) : Runtime :=
  {| page := p; request_queue := []; dataset := [] |}.

Definition seed_context : PlaywrightCrawlingContext :=
  {| request := {| url := lit "https://www.linkedin.com/jobs/search";
                   label := None;
                   loaded_url := Some (lit "https://www.linkedin.com/jobs/search") |} |}.

Definition job_context : PlaywrightCrawlingContext :=
  {| request := {| url := lit "https://www.linkedin.com/jobs/view/1";
                   label := Some (lit "job_listing");
                   loaded_url := Some (lit "https://ng.linkedin.com/jobs/view/1") |} |}.

(** A job page whose title element holds blank text only. *)
Definition blank_title_page : Page :=
  {| load_state := fun _ => inr tt;
     evaluate_all := fun _ _ => inr [];
     text_content := fun sel =>
       if str_eqb sel Routes.title_locator then inr (Some ([0xA] ++ lit "   " ++ [0x9]))
       else inr (Some (lit "Acme")) |}.

(** A job page on which the company read yields [None]. *)
Definition textless_page : Page :=
  {| load_state := fun _ => inr tt;
     evaluate_all := fun _ _ => inr [];
     text_content := fun sel =>
       if str_eqb sel Routes.company_locator then inr None
       else inr (Some (lit "Acme")) |}.

(** A results page on which one anchor has no href. *)
Definition unlinked_results_page : Page :=
  {| load_state := fun _ => inr tt;
     evaluate_all := fun _ _ =>
       inr [lit "https://www.linkedin.com/jobs/view/1"; []];
     text_content := fun _ => inl PlaywrightTimeoutError |}.

(** A check of URLs for the examples: the URL begins with [http://] or
    [https://]. *)
Definition http_scheme (u : str) : bool :=
  UrlParse.startswith (lit "http://") u || UrlParse.startswith (lit "https://") u.

(** A unique key for the examples: the URL itself. *)
Definition plain_key (u : str) : str := u.

(** A results page whose query raises. *)
Definition broken_results_page : Page :=
  {| load_state := fun _ => inr tt;
     evaluate_all := fun _ _ => inl PlaywrightError;
     text_content := fun _ => inl PlaywrightTimeoutError |}.

(** A crawler on which every operation returns. *)
Definition quiet_crawler : env crawlerSig unit := fun _ w => (inr tt, w).

(** A crawler whose run raises. *)
Definition blocked_crawler : env crawlerSig unit :=
  fun o w =>
    match o with
    | crawler_run _ => (inl PlaywrightError, w)
    | crawler_export_data _ => (inr tt, w)
    end.

(** The operations of the discovery stage. *)
Definition is_discovery (o : context_op) : bool :=
  match o with
  | locator_evaluate_all _ _ => true
  | context_add_requests _ => true
  | _ => false
  end.

(** The characters a seed URL is made of: the unreserved ones and
    [%+=&:/?]. *)
Definition url_char (c : char) : bool :=
  UrlParse.mem c (UrlParse.always_safe ++ lit "%+=&:/?").

(** [s] holds Unicode scalar values only: valid code points, none of
    them a surrogate. *)
Definition scalar_text (s : str) : Prop := valid_str s /\ no_surrogates s.

(** ** Whitespace removal *)

Lemma sub_scan_empty_filter cls b s :
  Re.sub_scan cls [] b s = filter (fun c => negb (Re.class_matches cls c)) s.
Proof.
  revert b; induction s as [|c s IH]; intros b; simpl; [reflexivity|].
  destruct (Re.class_matches cls c); simpl.
  - destruct b; simpl; apply IH.
  - f_equal; apply IH.
Qed.

Lemma runs_outside_concat sep cur s :
  List.concat (runs_outside sep cur s)
  = cur ++ filter (fun c => negb (sep c)) s.
Proof.
  revert cur; induction s as [|c s IH]; intros cur; simpl.
  - destruct cur; simpl; rewrite ?app_nil_r; reflexivity.
  - destruct (sep c); simpl.
    + destruct cur; simpl; rewrite IH; reflexivity.
    + rewrite IH, <- app_assoc; reflexivity.
Qed.

(** The class [[\s\n]] matches what [str.isspace] accepts. *)
Lemma whitespace_class_isspace c :
  Re.class_matches Routes.whitespace_class c = Unicode.isspace c.
Proof.
  unfold Re.class_matches, Routes.whitespace_class.
  cbn [existsb Re.item_matches]. rewrite orb_false_r.
  destruct (N.eqb_spec c 0xA) as [->|_]; [reflexivity | apply orb_false_r].
Qed.

Lemma filter_whitespace_class s :
  filter (fun c => negb (Unicode.isspace c)) s
  = filter (fun c => negb (Re.class_matches Routes.whitespace_class c)) s.
Proof.
  apply filter_ext. intros c. rewrite whitespace_class_isspace. reflexivity.
Qed.

Lemma sub_scan_whitespace_free cls b s :
  Forall (fun c => Re.class_matches cls c = false) (Re.sub_scan cls [] b s).
Proof.
  rewrite sub_scan_empty_filter. apply Forall_forall. intros c Hc.
  apply filter_In in Hc. destruct Hc as [_ Hc].
  destruct (Re.class_matches cls c); [discriminate | reflexivity].
Qed.

Lemma sub_scan_fixed cls b s :
  Forall (fun c => Re.class_matches cls c = false) s ->
  Re.sub_scan cls [] b s = s.
Proof.
  intros H; revert b; induction H as [|c s Hc _ IH]; intros b; simpl.
  - reflexivity.
  - rewrite Hc, IH; reflexivity.
Qed.

(** Every run is non-empty and has no separator. *)
Lemma runs_outside_sound sep cur s :
  Forall (fun c => sep c = false) cur ->
  Forall (fun r => r <> [] /\ Forall (fun c => sep c = false) r)
         (runs_outside sep cur s).
Proof.
  revert cur; induction s as [|c s IH]; intros cur Hcur; simpl.
  - destruct cur; constructor; [split; [discriminate | assumption] | constructor].
  - destruct (sep c) eqn:E.
    + destruct cur.
      * apply IH; constructor.
      * constructor; [split; [discriminate | assumption] | apply IH; constructor].
    + apply IH. apply Forall_app; split; [assumption | repeat constructor; exact E].
Qed.

Lemma non_whitespace_runs_sound s :
  Forall (fun r => r <> [] /\ whitespace_free r) (non_whitespace_runs s).
Proof.
  unfold non_whitespace_runs, whitespace_free.
  eapply Forall_impl; [|apply runs_outside_sound; constructor].
  intros r [Hne Hr]. split; [exact Hne|].
  eapply Forall_impl; [|exact Hr].
  intros c Hc. rewrite whitespace_class_isspace. exact Hc.
Qed.

Lemma sub_normalized s :
  Re.sub Routes.whitespace_class [] (Some s) = inr (normalized s).
Proof.
  unfold Re.sub, normalized, non_whitespace_runs.
  rewrite runs_outside_concat, app_nil_l, sub_scan_empty_filter.
  rewrite filter_whitespace_class. reflexivity.
Qed.

Lemma normalized_whitespace_free s : whitespace_free (normalized s).
Proof.
  unfold normalized, non_whitespace_runs, whitespace_free.
  rewrite runs_outside_concat, app_nil_l, filter_whitespace_class.
  rewrite <- (sub_scan_empty_filter _ false). apply sub_scan_whitespace_free.
Qed.

Lemma sub_whitespace_free_fixed s :
  whitespace_free s -> Re.sub Routes.whitespace_class [] (Some s) = inr s.
Proof.
  intros H. unfold Re.sub; simpl. f_equal. apply sub_scan_fixed, H.
Qed.

(** ** The extraction handler *)

Arguments lit : simpl never.
Arguments after : simpl never.
Arguments Re.sub : simpl never.

Lemma outcome_after {S : Sig} {W A : Type} (o : op S) (r : run S W A) :
  outcome (after o r) = outcome r.
Proof. reflexivity. Qed.

Lemma final_after {S : Sig} {W A : Type} (o : op S) (r : run S W A) :
  final (after o r) = final r.
Proof. reflexivity. Qed.

Lemma calls_after {S : Sig} {W A : Type} (o : op S) (r : run S W A) :
  calls (after o r) = o :: calls r.
Proof. reflexivity. Qed.

(** Rewrites a run of [listing_handler] under [crawlee] by the answers of
    the page that are known. *)
Ltac run_listing :=
  unfold Routes.listing_handler; cbn;
  repeat match goal with
         | H : ?a = _ |- context [match ?a with _ => _ end] => rewrite H; cbn
         end;
  rewrite ?sub_normalized; cbn; unfold after; cbn.

(** C4: when the load wait and the three reads succeed, the handler
    returns normally and adds exactly one record to the result sink; the
    record has the keys [title], [Company name], [Time of posting] and
    [url], in this order, the first three holding the normalized texts
    and the last the [loaded_url] of the request. *)
Theorem extraction_emits_one_record (key : str -> str) ctx w t c p :
  load_state (page w) (lit "load") = inr tt ->
  text_content (page w) Routes.title_locator = inr (Some t) ->
  text_content (page w) Routes.company_locator = inr (Some c) ->
  text_content (page w) Routes.time_locator = inr (Some p) ->
  let r := exec (crawlee key) (Routes.listing_handler ctx) w in
  outcome r = inr tt
  /\ dataset (final r)
     = dataset w ++ [[(lit "title", PyStr (normalized t));
                      (lit "Company name", PyStr (normalized c));
                      (lit "Time of posting", PyStr (normalized p));
                      (lit "url", pyval_of (loaded_url (request ctx)))]]
  /\ request_queue (final r) = request_queue w
  /\ List.length (filter is_push (calls r)) = 1%nat.
Proof.
  intros Hl Ht Hc Hp. run_listing. repeat split.
Qed.

Lemma extraction_emits_one_record_witness :
  let r := exec (crawlee plain_key) (Routes.listing_handler job_context) (fresh job_page) in
  outcome r = inr tt
  /\ dataset (final r)
     = [[(lit "title", PyStr (lit "SeniorEngineer"));
         (lit "Company name", PyStr (lit "AcmeCorp"));
         (lit "Time of posting", PyStr (lit "3daysago"));
         (lit "url", PyStr (lit "https://ng.linkedin.com/jobs/view/1"))]].
Proof.
  pose proof (extraction_emits_one_record plain_key job_context (fresh job_page)
                (lit "Senior" ++ [0xA] ++ lit "  Engineer")
                ([0xA] ++ lit "  Acme Corp " ++ [0xA])
                (lit " 3 days ago")
                eq_refl eq_refl eq_refl eq_refl) as H.
  cbv zeta in H. destruct H as (Ho & Hd & _).
  split; [exact Ho | exact Hd].
Defined.

(** C2: the three texts the handler pushes are the raw texts with every
    run of whitespace removed: each field is the concatenation of the
    non-whitespace runs of what was read, with no separator.  This is
    what [re.sub] with the pattern of the handler returns on every
    string; the runs are non-empty and hold no whitespace; spaces, tabs
    and newlines are whitespace; and ["Senior\n  Engineer"] becomes
    ["SeniorEngineer"], alone and as the title of a job page. *)
Theorem normalization_concatenates_runs :
  (forall raw : str,
      Re.sub Routes.whitespace_class [] (Some raw)
      = inr (List.concat (non_whitespace_runs raw)))
  /\ (forall raw : str,
         Forall (fun r => r <> [] /\ whitespace_free r) (non_whitespace_runs raw))
  /\ Forall (fun c => Re.class_matches Routes.whitespace_class c = true)
            [0x20; 0x9; 0xA]
  /\ Re.sub Routes.whitespace_class [] (Some (lit "Senior" ++ [0xA] ++ lit "  Engineer"))
     = inr (lit "SeniorEngineer")
  /\ (forall (key : str -> str) ctx w t c p,
         load_state (page w) (lit "load") = inr tt ->
         text_content (page w) Routes.title_locator = inr (Some t) ->
         text_content (page w) Routes.company_locator = inr (Some c) ->
         text_content (page w) Routes.time_locator = inr (Some p) ->
         dataset (final (exec (crawlee key) (Routes.listing_handler ctx) w))
         = dataset w
           ++ [[(lit "title", PyStr (List.concat (non_whitespace_runs t)));
                (lit "Company name", PyStr (List.concat (non_whitespace_runs c)));
                (lit "Time of posting", PyStr (List.concat (non_whitespace_runs p)));
                (lit "url", pyval_of (loaded_url (request ctx)))]])
  /\ dataset (final (exec (crawlee plain_key) (Routes.listing_handler job_context)
                          (fresh job_page)))
     = [[(lit "title", PyStr (lit "SeniorEngineer"));
         (lit "Company name", PyStr (lit "AcmeCorp"));
         (lit "Time of posting", PyStr (lit "3daysago"));
         (lit "url", PyStr (lit "https://ng.linkedin.com/jobs/view/1"))]].
Proof.
  split; [|split; [|split; [|split; [|split]]]].
  - intros raw. apply sub_normalized.
  - intros raw. apply non_whitespace_runs_sound.
  - repeat constructor.
  - reflexivity.
  - intros key ctx w t c p Hl Ht Hc Hp. run_listing. reflexivity.
  - reflexivity.
Qed.

(** Takes a run of [listing_handler] under [crawlee] apart by every answer
    the page can give. *)
Ltac listing_cases w :=
  unfold Routes.listing_handler; cbn;
  destruct (load_state (page w) (lit "load")) as [?e|[]]; cbn;
  [| destruct (text_content (page w) Routes.title_locator) as [?e|[?t|]]; cbn;
     [| destruct (text_content (page w) Routes.company_locator) as [?e|[?c|]]; cbn;
        [| destruct (text_content (page w) Routes.time_locator) as [?e|[?p|]]; cbn
         | destruct (text_content (page w) Routes.time_locator) as [?e|?p]; cbn ]
      | destruct (text_content (page w) Routes.company_locator) as [?e|?c]; cbn;
        [| destruct (text_content (page w) Routes.time_locator) as [?e|?p]; cbn ] ] ];
  rewrite ?sub_normalized; cbn; unfold after; cbn.

Lemma failed_inr {A : Type} (a : A) : ~ failed (inr a).
Proof. intros [e He]; discriminate. Qed.

(** C5: when the load wait or any of the three reads fails, the handler
    ends with an exception, the result sink and the queue are left as
    they were, and [push_data] is never called. *)
Theorem extraction_failure_emits_nothing (key : str -> str) ctx w :
  failed (load_state (page w) (lit "load"))
  \/ failed (text_content (page w) Routes.title_locator)
  \/ failed (text_content (page w) Routes.company_locator)
  \/ failed (text_content (page w) Routes.time_locator) ->
  let r := exec (crawlee key) (Routes.listing_handler ctx) w in
  failed (outcome r)
  /\ dataset (final r) = dataset w
  /\ final r = w
  /\ existsb is_push (calls r) = false.
Proof.
  intros H. listing_cases w;
    try (repeat split; solve [eexists; reflexivity | reflexivity]);
    exfalso; destruct H as [H|[H|[H|H]]]; exact (failed_inr _ H).
Qed.

Lemma extraction_failure_emits_nothing_witness :
  let r := exec (crawlee plain_key) (Routes.listing_handler job_context) (fresh untitled_page) in
  outcome r = inl PlaywrightTimeoutError /\ dataset (final r) = [].
Proof.
  assert (Hf : failed (text_content (page (fresh untitled_page)) Routes.title_locator))
    by (exists PlaywrightTimeoutError; reflexivity).
  pose proof (extraction_failure_emits_nothing plain_key job_context (fresh untitled_page)
                (or_intror (or_introl Hf))) as H.
  cbv zeta in H. destruct H as (_ & Hd & _).
  split; [reflexivity | exact Hd].
Defined.

(** C9: whatever the page answers, each record the handler adds to the
    result sink holds, under [title], [Company name] and [Time of
    posting], a text with no whitespace character (no space, tab or
    newline in particular) that the normalization leaves unchanged. *)
Theorem emitted_fields_have_no_whitespace (ukey : str -> str) ctx w :
  exists new,
    emitted w (final (exec (crawlee ukey) (Routes.listing_handler ctx) w)) new
    /\ Forall (fun d =>
                 forall key,
                   In key [lit "title"; lit "Company name"; lit "Time of posting"] ->
                   exists v,
                     lookup key d = Some (PyStr v)
                     /\ whitespace_free v
                     /\ (forall ch, In ch v -> ~ In ch [0x20; 0x9; 0xA])
                     /\ Re.sub Routes.whitespace_class [] (Some v) = inr v) new.
Proof.
  assert (Hfree : forall v, whitespace_free v ->
                            forall ch, In ch v -> ~ In ch [0x20; 0x9; 0xA]).
  { intros v Hv ch Hin Hch. unfold whitespace_free in Hv.
    rewrite Forall_forall in Hv. specialize (Hv ch Hin).
    destruct Hch as [<-|[<-|[<-|[]]]]; discriminate. }
  unfold emitted. listing_cases w;
    try (exists []; split; [symmetry; apply app_nil_r | constructor]).
  eexists; split; [reflexivity|].
  constructor; [|constructor].
  intros key [<-|[<-|[<-|[]]]]; eexists; (split; [reflexivity|]);
    (split; [apply normalized_whitespace_free|]);
    (split; [apply Hfree, normalized_whitespace_free
            | apply sub_whitespace_free_fixed, normalized_whitespace_free]).
Qed.

(** *** Order of the operations, under any environment *)

Lemma reads_first_prefix l pre o post :
  reads_first l = true -> l = pre ++ o :: post -> is_read o = true ->
  forallb is_read pre = true.
Proof.
  revert pre; induction l as [|a l IH]; intros pre Hl Heq Ho.
  - destruct pre; discriminate.
  - destruct pre as [|b pre]; [reflexivity|].
    injection Heq as <- Heq. simpl in Hl |- *.
    destruct (is_read a) eqn:Ea; simpl.
    + apply (IH _ Hl Heq Ho).
    + apply negb_true_iff in Hl.
      assert (Hex : existsb is_read l = true).
      { apply existsb_exists. exists o. split; [|exact Ho].
        rewrite Heq. apply in_or_app. right. left. reflexivity. }
      congruence.
Qed.

(** Takes a run of [listing_handler] apart by every answer an environment
    can give. *)
Ltac answer h o w :=
  let e := fresh "e" in
  let x := fresh "x" in
  let w' := fresh "w" in
  let E := fresh "E" in
  destruct (h o w) as [[e|x] w'] eqn:E; cbn.

Ltac listing_cases_env h w :=
  unfold Routes.listing_handler; cbn;
  answer h (page_wait_for_load_state (lit "load")) w;
  [| match goal with
     | |- context [h (locator_text_content Routes.title_locator) ?w1] =>
         answer h (locator_text_content Routes.title_locator) w1;
         [| match goal with
            | |- context [h (locator_text_content Routes.company_locator) ?w2] =>
                answer h (locator_text_content Routes.company_locator) w2;
                [| match goal with
                   | |- context [h (locator_text_content Routes.time_locator) ?w3] =>
                       answer h (locator_text_content Routes.time_locator) w3
                   end ]
            end ]
     end ].

(** C7: under any environment, the first operation of the handler is the
    wait for the [load] state and it is issued once; a failed wait ends
    the run with no further operation; and before any text read the wait
    has returned normally, with nothing but earlier text reads between
    the two. *)
Theorem load_wait_precedes_reads (W : Type) (h : env contextSig W) ctx w :
  let r := exec h (Routes.listing_handler ctx) w in
  let wait := page_wait_for_load_state (lit "load") in
  (exists rest,
      calls r = wait :: rest
      /\ ~ In wait rest
      /\ (failed (fst (h wait w)) -> rest = []))
  /\ (forall pre sel post,
         calls r = pre ++ locator_text_content sel :: post ->
         fst (h wait w) = inr tt
         /\ exists reads, pre = wait :: reads /\ forallb is_read reads = true).
Proof.
  cbv zeta. listing_cases_env h w;
    try (unfold Re.sub; cbn;
         destruct x0 as [t|]; cbn;
         [ destruct x1 as [c|]; cbn;
           [ destruct x2 as [p|]; cbn;
             [ match goal with
               | |- context [h (context_push_data ?d) ?w4] =>
                   answer h (context_push_data d) w4
               end | ] | ] | ]);
    unfold after; cbn;
    (split;
     [ eexists; split; [reflexivity|]; split;
       [ cbn; intuition discriminate
       | intros Hf; try reflexivity; exfalso; exact (failed_inr _ Hf) ]
     | intros pre sel post Heq;
       destruct pre as [|b pre]; [discriminate Heq|];
       injection Heq as <- Heq;
       first
         [ destruct pre; discriminate Heq
         | split;
           [ destruct x; reflexivity
           | eexists; split; [reflexivity|];
             eapply reads_first_prefix; [ | exact Heq | reflexivity]; reflexivity ] ] ]).
Qed.

(** ** The discovery handler *)

Lemma requests_from_hrefs (valid : str -> bool) l hrefs :
  comprehension (fun rec => Request_from_url valid rec l) hrefs
  = if forallb valid hrefs
    then inr (map (fun rec => {| url := rec; label := l; loaded_url := None |}) hrefs)
    else inl ValidationError.
Proof.
  induction hrefs as [|h hrefs IH]; [reflexivity|].
  cbn [comprehension forallb map]. unfold Request_from_url at 1.
  destruct (valid h); cbn; [|reflexivity].
  rewrite IH. destruct (forallb valid hrefs); reflexivity.
Qed.

Lemma default_handler_run (key : str -> str) (valid : str -> bool) ctx w :
  exec (crawlee key) (Routes.default_handler valid ctx) w
  = match evaluate_all (page w) Routes.results_links Routes.links_to_hrefs with
    | inl e =>
        {| outcome := inl e;
           final := w;
           calls := [locator_evaluate_all Routes.results_links Routes.links_to_hrefs] |}
    | inr hrefs =>
        if forallb valid hrefs
        then
          let requests :=
            map (fun rec => {| url := rec;
                               label := Some (lit "job_listing");
                               loaded_url := None |}) hrefs in
          {| outcome := inr tt;
             final := {| page := page w;
                         request_queue :=
                           request_queue w
                           ++ accepted key (map (unique_key key) (request_queue w))
                                       requests;
                         dataset := dataset w |};
             calls := [locator_evaluate_all Routes.results_links Routes.links_to_hrefs;
                       context_add_requests requests] |}
        else
          {| outcome := inl ValidationError;
             final := w;
             calls := [locator_evaluate_all Routes.results_links Routes.links_to_hrefs] |}
    end.
Proof.
  unfold Routes.default_handler; cbn.
  destruct (evaluate_all (page w) Routes.results_links Routes.links_to_hrefs)
    as [e|hrefs]; [reflexivity|].
  cbn. rewrite requests_from_hrefs.
  destruct (forallb valid hrefs); reflexivity.
Qed.

(** The queue takes in requests of the submission only. *)
Lemma accepted_incl (key : str -> str) seen rs : incl (accepted key seen rs) rs.
Proof.
  revert seen; induction rs as [|r rs IH]; intros seen x Hx; [contradiction|].
  cbn [accepted] in Hx.
  destruct (in_dec (list_eq_dec N.eq_dec) (unique_key key r) seen).
  - right. apply (IH _ _ Hx).
  - destruct Hx as [<-|Hx]; [left; reflexivity | right; apply (IH _ _ Hx)].
Qed.

(** What the queue takes in has keys it did not hold, each once. *)
Lemma accepted_fresh (key : str -> str) seen rs :
  NoDup (map (unique_key key) (accepted key seen rs))
  /\ forall r, In r (accepted key seen rs) -> ~ In (unique_key key r) seen.
Proof.
  revert seen; induction rs as [|r rs IH]; intros seen.
  - split; [constructor | contradiction].
  - cbn [accepted].
    destruct (in_dec (list_eq_dec N.eq_dec) (unique_key key r) seen) as [Hin|Hout].
    + apply IH.
    + destruct (IH (unique_key key r :: seen)) as [Hnd Hfresh]. split.
      * cbn [map]. constructor; [|exact Hnd].
        intros Hk. apply in_map_iff in Hk. destruct Hk as (x & Hkx & Hx).
        apply (Hfresh x Hx). left. symmetry. exact Hkx.
      * intros x [<-|Hx]; [exact Hout|].
        intros Hk. apply (Hfresh x Hx). right. exact Hk.
Qed.

(** Afterwards the queue holds the key of every submitted request. *)
Lemma accepted_covers (key : str -> str) seen rs r :
  In r rs ->
  In (unique_key key r) (seen ++ map (unique_key key) (accepted key seen rs)).
Proof.
  revert seen; induction rs as [|r0 rs IH]; intros seen Hr; [contradiction|].
  cbn [accepted].
  destruct (in_dec (list_eq_dec N.eq_dec) (unique_key key r0) seen) as [Hin|Hout].
  - destruct Hr as [<-|Hr]; [apply in_or_app; left; exact Hin | apply (IH _ Hr)].
  - cbn [map]. destruct Hr as [<-|Hr].
    + apply in_or_app. right. left. reflexivity.
    + specialize (IH (unique_key key r0 :: seen) Hr).
      apply in_app_or in IH. apply in_or_app.
      destruct IH as [[<-|IH]|IH];
        [right; left; reflexivity | left; exact IH | right; right; exact IH].
Qed.

(** C3, for hrefs that [Request.from_url] accepts: when the results list
    yields the hrefs [hrefs] and each is a valid URL, the handler returns
    normally after one call of [add_requests]; it submits exactly as many
    requests as there are hrefs, the request at each position has the
    href at that position as its URL and the label [job_listing], and
    the queue grows by requests of this submission only. *)
Theorem discovery_enqueues_each_href
  (key : str -> str) (valid : str -> bool) ctx w hrefs :
  evaluate_all (page w) Routes.results_links Routes.links_to_hrefs = inr hrefs ->
  forallb valid hrefs = true ->
  let r := exec (crawlee key) (Routes.default_handler valid ctx) w in
  outcome r = inr tt
  /\ exists submitted,
      calls r
      = [locator_evaluate_all Routes.results_links Routes.links_to_hrefs;
         context_add_requests submitted]
      /\ List.length submitted = List.length hrefs
      /\ (forall i href,
             nth_error hrefs i = Some href ->
             exists rq,
               nth_error submitted i = Some rq
               /\ url rq = href
               /\ label rq = Some (lit "job_listing"))
      /\ exists new,
          request_queue (final r) = request_queue w ++ new
          /\ incl new submitted.
Proof.
  intros H Hv. cbv zeta. rewrite default_handler_run, H, Hv. cbn.
  split; [reflexivity|].
  eexists; split; [reflexivity|]. split; [apply length_map|]. split.
  - intros i href Hi. eexists.
    split; [rewrite nth_error_map, Hi; reflexivity | split; reflexivity].
  - eexists; split; [reflexivity | apply accepted_incl].
Qed.

Lemma discovery_enqueues_each_href_witness :
  let r := exec (crawlee plain_key) (Routes.default_handler http_scheme seed_context)
                (fresh results_page) in
  outcome r = inr tt
  /\ exists submitted,
      calls r
      = [locator_evaluate_all Routes.results_links Routes.links_to_hrefs;
         context_add_requests submitted]
      /\ map url submitted
         = [lit "https://www.linkedin.com/jobs/view/1";
            lit "https://www.linkedin.com/jobs/view/2";
            lit "https://www.linkedin.com/jobs/view/1"].
Proof.
  pose proof (discovery_enqueues_each_href plain_key http_scheme seed_context
                (fresh results_page) _ eq_refl eq_refl) as H.
  cbv zeta in H. destruct H as (Ho & _).
  split; [exact Ho|]. eexists. split; reflexivity.
Defined.

(** C3 does not hold for every results page: an anchor without an href
    yields the empty string, [Request.from_url] refuses it, and the
    handler raises before it submits anything, the valid href
    included. *)
Lemma discovery_raises_on_missing_href :
  let r := exec (crawlee plain_key) (Routes.default_handler http_scheme seed_context)
                (fresh unlinked_results_page) in
  evaluate_all unlinked_results_page Routes.results_links Routes.links_to_hrefs
  = inr [lit "https://www.linkedin.com/jobs/view/1"; []]
  /\ http_scheme [] = false
  /\ outcome r = inl ValidationError
  /\ calls r = [locator_evaluate_all Routes.results_links Routes.links_to_hrefs]
  /\ request_queue (final r) = [].
Proof. cbv zeta. repeat split. Qed.

(** C6: when the results list yields no href, the handler returns
    normally and leaves the queue (and the whole state) as it was. *)
Theorem empty_discovery_is_silent (key : str -> str) (valid : str -> bool) ctx w :
  evaluate_all (page w) Routes.results_links Routes.links_to_hrefs = inr [] ->
  let r := exec (crawlee key) (Routes.default_handler valid ctx) w in
  outcome r = inr tt
  /\ request_queue (final r) = request_queue w
  /\ dataset (final r) = dataset w
  /\ In (context_add_requests []) (calls r).
Proof.
  intros H. cbv zeta. rewrite default_handler_run, H. cbn.
  rewrite app_nil_r. repeat split. right; left; reflexivity.
Qed.

Lemma empty_discovery_is_silent_witness :
  let r := exec (crawlee plain_key) (Routes.default_handler http_scheme seed_context)
                (fresh empty_results_page) in
  outcome r = inr tt /\ request_queue (final r) = [].
Proof.
  pose proof (empty_discovery_is_silent plain_key http_scheme seed_context
                (fresh empty_results_page) eq_refl)
    as H.
  cbv zeta in H. destruct H as (Ho & Hq & _).
  split; [exact Ho | exact Hq].
Defined.

(** C8: whatever the page answers, the handler never calls [push_data]
    and leaves the result sink as it was; the state changes in the
    request queue only, by requests appended to it. *)
Theorem discovery_emits_no_record (key : str -> str) (valid : str -> bool) ctx w :
  let r := exec (crawlee key) (Routes.default_handler valid ctx) w in
  dataset (final r) = dataset w
  /\ existsb is_push (calls r) = false
  /\ exists new,
      final r = {| page := page w;
                   request_queue := request_queue w ++ new;
                   dataset := dataset w |}.
Proof.
  cbv zeta. rewrite default_handler_run.
  destruct (evaluate_all (page w) Routes.results_links Routes.links_to_hrefs)
    as [e|hrefs]; [|destruct (forallb valid hrefs)]; cbn.
  - repeat split. exists []. rewrite app_nil_r. destruct w; reflexivity.
  - repeat split. eexists; reflexivity.
  - repeat split. exists []. rewrite app_nil_r. destruct w; reflexivity.
Qed.

(** ** UTF-8 *)

Ltac Zify.zify_post_hook ::= Z.to_euclidean_division_equations.

(** Settles the comparisons of a goal by arithmetic. *)
Ltac settle_tests :=
  repeat match goal with
         | |- context [?a <? ?b] => destruct (N.ltb_spec a b); try lia
         | |- context [?a <=? ?b] => destruct (N.leb_spec a b); try lia
         end.

Lemma decode_1 b r :
  b < 0x80 -> Unicode.decode (b :: r) = option_map (cons b) (Unicode.decode r).
Proof. intros H. cbn [Unicode.decode]. settle_tests. reflexivity. Qed.

Lemma decode_2 b0 b1 r :
  0xC2 <= b0 < 0xE0 -> 0x80 <= b1 < 0xC0 ->
  Unicode.decode (b0 :: b1 :: r)
  = option_map (cons ((b0 - 0xC0) * 64 + (b1 - 0x80))) (Unicode.decode r).
Proof.
  intros H0 H1. cbn [Unicode.decode]. unfold Unicode.is_cont.
  settle_tests. reflexivity.
Qed.

Lemma decode_3 b0 b1 b2 r :
  let c := (b0 - 0xE0) * 4096 + (b1 - 0x80) * 64 + (b2 - 0x80) in
  0xE0 <= b0 < 0xF0 -> 0x80 <= b1 < 0xC0 -> 0x80 <= b2 < 0xC0 ->
  0x800 <= c -> Unicode.is_surrogate c = false ->
  Unicode.decode (b0 :: b1 :: b2 :: r) = option_map (cons c) (Unicode.decode r).
Proof.
  intros c H0 H1 H2 Hc Hs. cbn [Unicode.decode]. fold c. rewrite Hs.
  unfold Unicode.is_cont. settle_tests. reflexivity.
Qed.

Lemma decode_4 b0 b1 b2 b3 r :
  let c := (b0 - 0xF0) * 262144 + (b1 - 0x80) * 4096
           + (b2 - 0x80) * 64 + (b3 - 0x80) in
  0xF0 <= b0 < 0xF5 -> 0x80 <= b1 < 0xC0 -> 0x80 <= b2 < 0xC0 ->
  0x80 <= b3 < 0xC0 -> 0x10000 <= c < 0x110000 ->
  Unicode.decode (b0 :: b1 :: b2 :: b3 :: r) = option_map (cons c) (Unicode.decode r).
Proof.
  intros c H0 H1 H2 H3 Hc. cbn [Unicode.decode]. fold c.
  unfold Unicode.is_cont. settle_tests. reflexivity.
Qed.

Lemma some_eq {A : Type} (a b : A) : Some a = Some b -> a = b.
Proof. intros H; injection H; trivial. Qed.

Lemma inr_eq {A B : Type} (a b : B) : @inr A B a = inr b -> a = b.
Proof. intros H; injection H; trivial. Qed.

(** The octets of one code point decode to it, whatever follows. *)
Lemma utf8_char_roundtrip c bs r :
  Unicode.utf8_encode_char c = Some bs ->
  Unicode.decode (bs ++ r) = option_map (cons c) (Unicode.decode r).
Proof.
  unfold Unicode.utf8_encode_char.
  destruct (N.ltb_spec c 0x80) as [H1|H1].
  { intros H; apply some_eq in H; subst bs. apply decode_1; exact H1. }
  destruct (N.ltb_spec c 0x800) as [H2|H2].
  { intros H; apply some_eq in H; subst bs. cbn [app].
    assert (Hc : (0xC0 + c / 64 - 0xC0) * 64 + (0x80 + c mod 64 - 0x80) = c) by lia.
    rewrite decode_2; rewrite ?Hc; try lia. reflexivity. }
  destruct (N.ltb_spec c 0x10000) as [H3|H3].
  { destruct (Unicode.is_surrogate c) eqn:Hs; [discriminate|].
    intros H; apply some_eq in H; subst bs. cbn [app].
    assert (Hc : (0xE0 + c / 4096 - 0xE0) * 4096
                 + (0x80 + (c / 64) mod 64 - 0x80) * 64
                 + (0x80 + c mod 64 - 0x80) = c) by lia.
    rewrite decode_3; rewrite ?Hc; try lia; [reflexivity | exact Hs]. }
  destruct (N.ltb_spec c 0x110000) as [H4|H4]; [|discriminate].
  intros H; apply some_eq in H; subst bs. cbn [app].
  assert (Hc : (0xF0 + c / 262144 - 0xF0) * 262144
               + (0x80 + (c / 4096) mod 64 - 0x80) * 4096
               + (0x80 + (c / 64) mod 64 - 0x80) * 64
               + (0x80 + c mod 64 - 0x80) = c) by lia.
  rewrite decode_4; rewrite ?Hc; try lia. reflexivity.
Qed.

Lemma utf8_char_octets c bs :
  Unicode.utf8_encode_char c = Some bs ->
  Forall (fun b => b < 256) bs
  /\ (c < 0x80 /\ bs = [c] \/ 0x80 <= c /\ Forall (fun b => 0x80 <= b) bs).
Proof.
  unfold Unicode.utf8_encode_char.
  destruct (N.ltb_spec c 0x80) as [H1|H1].
  { intros H; apply some_eq in H; subst bs.
    split; [repeat constructor; lia | left; split; [lia | reflexivity]]. }
  destruct (N.ltb_spec c 0x800) as [H2|H2].
  { intros H; apply some_eq in H; subst bs.
    split; [|right; split; [lia|]]; repeat constructor; lia. }
  destruct (N.ltb_spec c 0x10000) as [H3|H3].
  { destruct (Unicode.is_surrogate c); [discriminate|].
    intros H; apply some_eq in H; subst bs.
    split; [|right; split; [lia|]]; repeat constructor; lia. }
  destruct (N.ltb_spec c 0x110000) as [H4|H4]; [|discriminate].
  intros H; apply some_eq in H; subst bs.
  split; [|right; split; [lia|]]; repeat constructor; lia.
Qed.

Lemma utf8_char_defined c :
  c < 0x110000 -> Unicode.is_surrogate c = false ->
  exists bs, Unicode.utf8_encode_char c = Some bs.
Proof.
  intros Hc Hs. unfold Unicode.utf8_encode_char. rewrite Hs.
  settle_tests; eexists; reflexivity.
Qed.

Lemma encode_cons c s bs :
  Unicode.encode (c :: s) = inr bs ->
  exists b r, Unicode.utf8_encode_char c = Some b
              /\ Unicode.encode s = inr r /\ bs = b ++ r.
Proof.
  cbn [Unicode.encode].
  destruct (Unicode.utf8_encode_char c) as [b|]; [|discriminate].
  destruct (Unicode.encode s) as [e|r]; cbn; [discriminate|].
  intros [= <-]. exists b, r. repeat split.
Qed.

(** Decoding undoes encoding. *)
Lemma encode_decode s bs :
  Unicode.encode s = inr bs -> Unicode.decode bs = Some s.
Proof.
  revert bs; induction s as [|c s IH]; intros bs H.
  - injection H as <-. reflexivity.
  - apply encode_cons in H. destruct H as (b & r & Hb & Hr & ->).
    rewrite (utf8_char_roundtrip _ _ _ Hb), (IH _ Hr). reflexivity.
Qed.

(** A string of valid code points with no surrogate has an encoding. *)
Lemma encode_defined s :
  valid_str s -> no_surrogates s -> exists bs, Unicode.encode s = inr bs.
Proof.
  intros Hv Hs; induction s as [|c s IH].
  - exists []. reflexivity.
  - inversion Hv as [|? ? Hc Hv']; inversion Hs as [|? ? Hsc Hs']; subst.
    destruct (utf8_char_defined c Hc Hsc) as [b Hb].
    destruct (IH Hv' Hs') as [r Hr].
    exists (b ++ r). cbn [Unicode.encode]. rewrite Hb, Hr. reflexivity.
Qed.

Lemma encode_octets s bs :
  Unicode.encode s = inr bs -> Forall (fun b => b < 256) bs.
Proof.
  revert bs; induction s as [|c s IH]; intros bs H.
  - injection H as <-. constructor.
  - apply encode_cons in H. destruct H as (b & r & Hb & Hr & ->).
    apply Forall_app. split; [apply (utf8_char_octets _ _ Hb) | apply (IH _ Hr)].
Qed.

(** A space octet comes from a space character only. *)
Lemma encode_space s bs :
  Unicode.encode s = inr bs -> UrlParse.mem 0x20 bs = UrlParse.mem 0x20 s.
Proof.
  revert bs; induction s as [|c s IH]; intros bs H.
  - injection H as <-. reflexivity.
  - apply encode_cons in H. destruct H as (b & r & Hb & Hr & ->).
    unfold UrlParse.mem in *. rewrite existsb_app, (IH _ Hr). cbn [existsb].
    f_equal. destruct (utf8_char_octets _ _ Hb) as [_ [[_ ->]|[Hc Hall]]].
    + cbn. apply orb_false_r.
    + destruct (N.eqb_spec 0x20 c) as [<-|_]; [lia|].
      destruct (existsb (N.eqb 0x20) b) eqn:E; [|reflexivity].
      apply existsb_exists in E. destruct E as (x & Hx & Hx').
      apply N.eqb_eq in Hx'. subst x.
      rewrite Forall_forall in Hall. specialize (Hall _ Hx). lia.
Qed.

(** ASCII text is its own encoding. *)
Lemma encode_ascii s : Forall (fun c => c < 0x80) s -> Unicode.encode s = inr s.
Proof.
  induction 1 as [|c s Hc _ IH]; [reflexivity|].
  cbn [Unicode.encode]. unfold Unicode.utf8_encode_char.
  destruct (N.ltb_spec c 0x80); [|lia]. rewrite IH. reflexivity.
Qed.

(** ** Quoting and unquoting *)

Lemma below_forallb (P : N -> bool) k :
  forallb P (below k) = true -> forall n, n < N.of_nat k -> P n = true.
Proof.
  intros H n Hn. rewrite forallb_forall in H. apply H.
  unfold below. apply in_map_iff. exists (N.to_nat n).
  split; [apply N2Nat.id | apply in_seq; lia].
Qed.

Lemma str_eqb_eq a b : str_eqb a b = true -> a = b.
Proof. unfold str_eqb. destruct (list_eq_dec N.eq_dec a b); [trivial | discriminate]. Qed.

Lemma octets_ok b : b < 256 -> octet_ok b = true.
Proof. apply (below_forallb octet_ok 256). vm_compute. reflexivity. Qed.

Lemma octet_facts b :
  b < 256 ->
  UrlParse.replace 0x20 0x2B (UrlParse.quoter [0x20] b) = quoted_octet b
  /\ (b <> 0x20 -> UrlParse.quoter [] b = quoted_octet b)
  /\ stands_for b (UrlParse.replace 0x2B 0x20 (quoted_octet b)) = true
  /\ forallb quoted_char (quoted_octet b) = true.
Proof.
  intros H. pose proof (octets_ok b H) as Hok. unfold octet_ok in Hok.
  apply andb_prop in Hok. destruct Hok as [Hok H4].
  apply andb_prop in Hok. destruct Hok as [Hok H3].
  apply andb_prop in Hok. destruct Hok as [H1 H2].
  split; [apply str_eqb_eq, H1|]. split; [|split; assumption].
  intros Hb. apply orb_prop in H2. destruct H2 as [H2|H2].
  - apply N.eqb_eq in H2. contradiction.
  - apply str_eqb_eq, H2.
Qed.

Lemma octet_with_space b :
  b < 256 -> UrlParse.replace 0x20 0x2B (UrlParse.quoter [0x20] b) = quoted_octet b.
Proof. intros H. apply (octet_facts b H). Qed.

Lemma octet_without_space b :
  b < 256 -> b <> 0x20 -> UrlParse.quoter [] b = quoted_octet b.
Proof. intros H. apply (octet_facts b H). Qed.

Lemma octet_stands_for b :
  b < 256 -> stands_for b (UrlParse.replace 0x2B 0x20 (quoted_octet b)) = true.
Proof. intros H. apply (octet_facts b H). Qed.

Lemma octet_quoted_chars b : b < 256 -> forallb quoted_char (quoted_octet b) = true.
Proof. intros H. apply (octet_facts b H). Qed.

Lemma quoted_char_ascii c : quoted_char c = true -> c < 0x80.
Proof.
  intros H. unfold quoted_char, UrlParse.mem in H.
  apply existsb_exists in H. destruct H as (x & Hx & Hcx).
  apply N.eqb_eq in Hcx. subst x.
  assert (Hall : forallb (fun x => x <? 0x80) (UrlParse.always_safe ++ [0x2B; 0x25]) = true)
    by (vm_compute; reflexivity).
  rewrite forallb_forall in Hall. apply N.ltb_lt, Hall, Hx.
Qed.

(** No quoted character is one of [&], [=], [#], [?]. *)
Lemma quoted_char_no_delimiter c :
  quoted_char c = true -> ~ In c [0x26; 0x3D; 0x23; 0x3F].
Proof.
  intros H [<-|[<-|[<-|[<-|[]]]]]; vm_compute in H; discriminate.
Qed.

Lemma quote_from_bytes_flat_map bs safe :
  UrlParse.quote_from_bytes bs safe
  = flat_map (UrlParse.quoter (filter (fun c => c <? 128) safe)) bs.
Proof.
  unfold UrlParse.quote_from_bytes. destruct bs as [|b bs]; [reflexivity|].
  cbv zeta. rewrite flat_map_concat_map.
  destruct (forallb _ (b :: bs)) eqn:E; [|reflexivity].
  rewrite forallb_forall in E. revert E.
  generalize (b :: bs) as l. induction l as [|x l IH]; intros E; [reflexivity|].
  cbn [map List.concat]. unfold UrlParse.quoter at 1.
  rewrite (E x (or_introl eq_refl)). cbn [app]. f_equal.
  apply IH. intros y Hy. apply E. right. exact Hy.
Qed.

Lemma mem_false_not_in x l : UrlParse.mem x l = false -> ~ In x l.
Proof.
  intros H Hin. unfold UrlParse.mem in H.
  assert (existsb (N.eqb x) l = true)
    by (apply existsb_exists; exists x; split; [exact Hin | apply N.eqb_refl]).
  congruence.
Qed.

Lemma replace_app old new a b :
  UrlParse.replace old new (a ++ b)
  = UrlParse.replace old new a ++ UrlParse.replace old new b.
Proof. apply map_app. Qed.

Lemma quoted_with_space bs :
  Forall (fun b => b < 256) bs ->
  UrlParse.replace 0x20 0x2B (flat_map (UrlParse.quoter [0x20]) bs)
  = flat_map quoted_octet bs.
Proof.
  induction 1 as [|b bs Hb _ IH]; [reflexivity|].
  cbn [flat_map]. rewrite replace_app, IH, (octet_with_space b Hb). reflexivity.
Qed.

Lemma quoted_without_space bs :
  Forall (fun b => b < 256) bs -> ~ In 0x20 bs ->
  flat_map (UrlParse.quoter []) bs = flat_map quoted_octet bs.
Proof.
  induction 1 as [|b bs Hb _ IH]; intros Hsp; [reflexivity|].
  cbn [flat_map]. rewrite IH by (intros Hin; apply Hsp; right; exact Hin).
  rewrite (octet_without_space b Hb); [reflexivity|].
  intros ->. apply Hsp. left. reflexivity.
Qed.

(** [quote_plus] writes each octet of the encoded string on its own. *)
Lemma quote_plus_spec s bs :
  Unicode.encode s = inr bs ->
  UrlParse.quote_plus s [] = inr (flat_map quoted_octet bs).
Proof.
  intros He. pose proof (encode_octets _ _ He) as Hoct.
  pose proof (encode_space _ _ He) as Hsp.
  unfold UrlParse.quote_plus, UrlParse.quote.
  destruct s as [|c s].
  { injection He as <-. reflexivity. }
  rewrite He. cbn [app bind ret Monad_either].
  rewrite !quote_from_bytes_flat_map.
  destruct (UrlParse.mem 0x20 (c :: s)) eqn:E; cbn [negb]; f_equal.
  - apply (quoted_with_space bs Hoct).
  - apply (quoted_without_space bs Hoct), mem_false_not_in, Hsp.
Qed.

Lemma quote_plus_inv s q :
  UrlParse.quote_plus s [] = inr q ->
  exists bs, Unicode.encode s = inr bs /\ q = flat_map quoted_octet bs.
Proof.
  intros H. destruct (Unicode.encode s) as [e|bs] eqn:He.
  - exfalso. destruct s as [|c s]; [discriminate He|].
    unfold UrlParse.quote_plus, UrlParse.quote in H. rewrite He in H.
    destruct (negb (UrlParse.mem 0x20 (c :: s))); discriminate H.
  - exists bs. split; [reflexivity|].
    rewrite (quote_plus_spec _ _ He) in H. injection H as <-. reflexivity.
Qed.

Lemma quoted_chars bs :
  Forall (fun b => b < 256) bs ->
  Forall (fun c => quoted_char c = true) (flat_map quoted_octet bs).
Proof.
  induction 1 as [|b bs Hb _ IH]; [constructor|].
  cbn [flat_map]. apply Forall_app. split; [|exact IH].
  apply Forall_forall. apply forallb_forall. apply (octet_quoted_chars b Hb).
Qed.

Lemma stands_for_decode b q r :
  stands_for b q = true ->
  UrlParse.percent_decode (q ++ r) = b :: UrlParse.percent_decode r.
Proof.
  unfold stands_for. destruct q as [|c [|h [|l [|? ?]]]]; try discriminate.
  - intros H. apply andb_prop in H. destruct H as [Hc Hb].
    apply N.eqb_eq in Hb. subst c. apply negb_true_iff in Hc.
    cbn [app UrlParse.percent_decode]. rewrite Hc. reflexivity.
  - intros H. apply andb_prop in H. destruct H as [Hc Hb].
    apply N.eqb_eq in Hc. subst c.
    cbn [app UrlParse.percent_decode]. rewrite N.eqb_refl.
    destruct (UrlParse.hex_value h) as [x|]; [|discriminate].
    destruct (UrlParse.hex_value l) as [y|]; [|discriminate].
    apply N.eqb_eq in Hb. rewrite Hb. reflexivity.
Qed.

Lemma percent_decode_quoted bs :
  Forall (fun b => b < 256) bs ->
  UrlParse.percent_decode (UrlParse.replace 0x2B 0x20 (flat_map quoted_octet bs)) = bs.
Proof.
  induction 1 as [|b bs Hb _ IH]; [reflexivity|].
  cbn [flat_map]. rewrite replace_app.
  rewrite (stands_for_decode b _ _ (octet_stands_for b Hb)), IH. reflexivity.
Qed.

Lemma replace_ascii old new s :
  new < 0x80 -> Forall (fun c => c < 0x80) s ->
  Forall (fun c => c < 0x80) (UrlParse.replace old new s).
Proof.
  intros Hn H. unfold UrlParse.replace. apply Forall_map.
  apply (Forall_impl _ (P := fun c => c < 0x80)); [|exact H].
  intros c Hc. cbv beta. destruct (c =? old); assumption.
Qed.

(** [unquote_plus] reads back what [quote_plus] wrote. *)
Lemma unquote_plus_spec s bs :
  Unicode.encode s = inr bs ->
  UrlParse.unquote_plus (flat_map quoted_octet bs) = Some s.
Proof.
  intros He. pose proof (encode_octets _ _ He) as Hoct.
  unfold UrlParse.unquote_plus, UrlParse.unquote.
  rewrite encode_ascii.
  - rewrite (percent_decode_quoted bs Hoct). apply (encode_decode _ _ He).
  - apply replace_ascii; [lia|].
    apply (Forall_impl _ (P := fun c => quoted_char c = true));
      [exact quoted_char_ascii | apply (quoted_chars bs Hoct)].
Qed.

(** ** Splitting and parsing a query *)

Lemma split_plain sep a : ~ In sep a -> UrlParse.split sep a = [a].
Proof.
  induction a as [|c a IH]; intros H; [reflexivity|].
  cbn [UrlParse.split]. destruct (N.eqb_spec c sep) as [->|_].
  - exfalso. apply H. left. reflexivity.
  - rewrite IH by (intros Hin; apply H; right; exact Hin). reflexivity.
Qed.

Lemma split_app sep a b :
  ~ In sep a -> UrlParse.split sep (a ++ sep :: b) = a :: UrlParse.split sep b.
Proof.
  induction a as [|c a IH]; intros H.
  - cbn [app UrlParse.split]. rewrite N.eqb_refl. reflexivity.
  - cbn [app UrlParse.split]. destruct (N.eqb_spec c sep) as [->|_].
    + exfalso. apply H. left. reflexivity.
    + rewrite IH by (intros Hin; apply H; right; exact Hin). reflexivity.
Qed.

Lemma split1_plain sep a : ~ In sep a -> UrlParse.split1 sep a = (a, None).
Proof.
  induction a as [|c a IH]; intros H; [reflexivity|].
  cbn [UrlParse.split1]. destruct (N.eqb_spec c sep) as [->|_].
  - exfalso. apply H. left. reflexivity.
  - rewrite IH by (intros Hin; apply H; right; exact Hin). reflexivity.
Qed.

Lemma split1_app sep a b :
  ~ In sep a -> UrlParse.split1 sep (a ++ sep :: b) = (a, Some b).
Proof.
  induction a as [|c a IH]; intros H.
  - cbn [app UrlParse.split1]. rewrite N.eqb_refl. reflexivity.
  - cbn [app UrlParse.split1]. destruct (N.eqb_spec c sep) as [->|_].
    + exfalso. apply H. left. reflexivity.
    + rewrite IH by (intros Hin; apply H; right; exact Hin). reflexivity.
Qed.

Lemma split_join fields :
  fields <> [] -> Forall (fun f => ~ In 0x26 f) fields ->
  UrlParse.split 0x26 (UrlParse.join [0x26] fields) = fields.
Proof.
  intros Hne H. induction H as [|f fs Hf Hfs IH]; [contradiction|].
  destruct fs as [|g fs].
  - cbn [UrlParse.join]. apply split_plain, Hf.
  - change (UrlParse.join [0x26] (f :: g :: fs))
      with (f ++ 0x26 :: UrlParse.join [0x26] (g :: fs)).
    rewrite (split_app _ _ _ Hf), IH by discriminate. reflexivity.
Qed.

Lemma quoted_no_delimiter q d :
  Forall (fun c => quoted_char c = true) q -> In d [0x26; 0x3D; 0x23; 0x3F] ->
  ~ In d q.
Proof.
  intros H Hd Hin. rewrite Forall_forall in H.
  apply (quoted_char_no_delimiter d (H d Hin) Hd).
Qed.

Lemma urlencode_items_fields params fields :
  UrlParse.urlencode_items params = inr fields -> Forall2 field_of params fields.
Proof.
  revert fields; induction params as [|[k v] params IH]; intros fields H.
  - injection H as <-. constructor.
  - cbn [UrlParse.urlencode_items] in H.
    destruct (UrlParse.quote_plus k []) as [e|k'] eqn:Hk;
      cbn [bind ret Monad_either] in H; [discriminate|].
    destruct (UrlParse.quote_plus v []) as [e|v'] eqn:Hv;
      cbn [bind ret Monad_either] in H; [discriminate|].
    destruct (UrlParse.urlencode_items params) as [e|l] eqn:Hl;
      cbn [bind ret Monad_either] in H; [discriminate|].
    injection H as <-.
    apply quote_plus_inv in Hk. destruct Hk as (bk & Hbk & ->).
    apply quote_plus_inv in Hv. destruct Hv as (bv & Hbv & ->).
    constructor; [|apply IH; reflexivity].
    exists bk, bv. repeat split; assumption.
Qed.

Lemma urlencode_items_defined params :
  Forall (fun kv => (exists b, Unicode.encode (fst kv) = inr b)
                    /\ (exists b, Unicode.encode (snd kv) = inr b)) params ->
  exists fields, UrlParse.urlencode_items params = inr fields.
Proof.
  induction 1 as [|[k v] params [[bk Hk] [bv Hv]] _ [l IH]].
  - exists []. reflexivity.
  - cbn [fst snd] in Hk, Hv. cbn [UrlParse.urlencode_items].
    rewrite (quote_plus_spec _ _ Hk), (quote_plus_spec _ _ Hv), IH.
    eexists. reflexivity.
Qed.

Lemma field_no_ampersand kv f : field_of kv f -> f <> [] /\ ~ In 0x26 f.
Proof.
  intros (bk & bv & Hk & Hv & ->). split.
  - destruct (flat_map quoted_octet bk); discriminate.
  - intros Hin. apply in_app_or in Hin. destruct Hin as [Hin|[Hin|Hin]].
    + revert Hin. apply quoted_no_delimiter;
        [apply quoted_chars, (encode_octets _ _ Hk) | left; reflexivity].
    + discriminate Hin.
    + revert Hin. apply quoted_no_delimiter;
        [apply quoted_chars, (encode_octets _ _ Hv) | left; reflexivity].
Qed.

Lemma parse_fields_cons f fs :
  f <> [] ->
  UrlParse.parse_fields (f :: fs)
  = let (n, v) := UrlParse.split1 0x3D f in
    match UrlParse.unquote_plus n,
          UrlParse.unquote_plus (match v with Some v => v | None => [] end),
          UrlParse.parse_fields fs with
    | Some name, Some value, Some r => Some ((name, value) :: r)
    | _, _, _ => None
    end.
Proof. destruct f; [contradiction | reflexivity]. Qed.

Lemma parse_fields_of params fields :
  Forall2 field_of params fields -> UrlParse.parse_fields fields = Some params.
Proof.
  induction 1 as [|[k v] f params fields Hf _ IH]; [reflexivity|].
  rewrite parse_fields_cons by (apply (field_no_ampersand _ _ Hf)).
  destruct Hf as (bk & bv & Hk & Hv & ->). cbn [fst snd] in Hk, Hv.
  rewrite split1_app.
  - rewrite (unquote_plus_spec _ _ Hk), (unquote_plus_spec _ _ Hv), IH. reflexivity.
  - apply quoted_no_delimiter;
      [apply quoted_chars, (encode_octets _ _ Hk) | right; left; reflexivity].
Qed.

(** Parsing the query that [urlencode] wrote gives the pairs back, in
    order, blank values included. *)
Lemma urlencode_roundtrip params q :
  UrlParse.urlencode params = inr q -> UrlParse.parse_qsl q = Some params.
Proof.
  unfold UrlParse.urlencode.
  destruct (UrlParse.urlencode_items params) as [e|fields] eqn:Hf;
    cbn [bind ret Monad_either]; [discriminate|].
  intros H; injection H as <-.
  apply urlencode_items_fields in Hf.
  destruct Hf as [|kv f params fields Hkv Hrest]; [reflexivity|].
  assert (Hall : Forall (fun f => ~ In 0x26 f) (f :: fields)).
  { constructor; [apply (field_no_ampersand _ _ Hkv)|].
    clear Hkv. induction Hrest as [|? ? ? ? Hx _ IH]; constructor;
      [apply (field_no_ampersand _ _ Hx) | exact IH]. }
  assert (Hq : UrlParse.join (lit "&") (f :: fields) <> []).
  { destruct (field_no_ampersand _ _ Hkv) as [Hne _].
    destruct f; [contradiction|]. destruct fields; discriminate. }
  unfold UrlParse.parse_qsl.
  destruct (UrlParse.join (lit "&") (f :: fields)) as [|c q] eqn:Hj; [contradiction|].
  rewrite <- Hj. change (lit "&") with [0x26].
  rewrite split_join by (discriminate || exact Hall).
  apply parse_fields_of. constructor; assumption.
Qed.

Lemma join_chars (P : char -> Prop) sep fields :
  Forall P sep -> Forall (Forall P) fields -> Forall P (UrlParse.join sep fields).
Proof.
  intros Hs H. induction H as [|f fs Hf Hfs IH]; [constructor|].
  destruct fs as [|g fs]; [exact Hf|].
  change (UrlParse.join sep (f :: g :: fs))
    with (f ++ sep ++ UrlParse.join sep (g :: fs)).
  repeat (apply Forall_app; split); assumption.
Qed.

(** The query [urlencode] writes has no [#] and no [?]. *)
Lemma urlencode_chars params q :
  UrlParse.urlencode params = inr q -> ~ In 0x23 q /\ ~ In 0x3F q.
Proof.
  unfold UrlParse.urlencode.
  destruct (UrlParse.urlencode_items params) as [e|fields] eqn:Hf;
    cbn [bind ret Monad_either]; [discriminate|].
  intros H; injection H as <-.
  apply urlencode_items_fields in Hf.
  assert (Hall : Forall (fun c => c <> 0x23 /\ c <> 0x3F)
                        (UrlParse.join (lit "&") fields)).
  { apply join_chars; [repeat constructor; discriminate|].
    induction Hf as [|kv f ? ? Hkv _ IH]; constructor; [|exact IH].
    destruct Hkv as (bk & bv & Hk & Hv & ->).
    assert (Hq : forall bs, Forall (fun b => b < 256) bs ->
                            Forall (fun c => c <> 0x23 /\ c <> 0x3F)
                                   (flat_map quoted_octet bs)).
    { intros bs Hbs.
      apply (Forall_impl _ (P := fun c => quoted_char c = true));
        [|apply (quoted_chars bs Hbs)].
      intros c Hc. split; intros ->; vm_compute in Hc; discriminate. }
    apply Forall_app. split; [apply Hq, (encode_octets _ _ Hk)|].
    constructor; [split; discriminate | apply Hq, (encode_octets _ _ Hv)]. }
  rewrite Forall_forall in Hall.
  split; intros Hin; destruct (Hall _ Hin) as [H1 H2]; congruence.
Qed.

Lemma startswith_app p s : UrlParse.startswith p (p ++ s) = true.
Proof.
  induction p as [|c p IH]; [reflexivity|].
  cbn [app UrlParse.startswith]. rewrite N.eqb_refl, IH. reflexivity.
Qed.

(** ** The seed URL *)

Arguments Main.encoded_url : simpl never.

Lemma literal_encodes (s : string) bs :
  Unicode.encode (lit s) = inr bs -> exists b, Unicode.encode (lit s) = inr b.
Proof. intros H. exists bs. exact H. Qed.

(** C1, for a title and a location that UTF-8 can encode (no surrogate
    code point): the seed URL is built, starts with
    [https://www.linkedin.com/jobs/search?], and its query parses to
    exactly the five parameters [keywords], [location], [trk],
    [position] and [pageNum], the first two with the title and the
    location as values and the others with their constants. *)
Theorem seed_url_carries_the_query (resolve : str -> str -> str) title location :
  valid_str title -> valid_str location ->
  no_surrogates title -> no_surrogates location ->
  exists url,
    Main.encoded_url resolve title location = inr url
    /\ UrlParse.startswith (lit "https://www.linkedin.com/jobs/search?") url = true
    /\ UrlParse.parse_qsl (UrlParse.urlsplit_query url)
       = Some [(lit "keywords", title);
               (lit "location", location);
               (lit "trk", lit "public_jobs_jobs-search-bar_search-submit");
               (lit "position", lit "1");
               (lit "pageNum", lit "0")].
Proof.
  intros Hvt Hvl Hst Hsl.
  destruct (encode_defined title Hvt Hst) as [bt Hbt].
  destruct (encode_defined location Hvl Hsl) as [bl Hbl].
  set (params := [(lit "keywords", title);
                  (lit "location", location);
                  (lit "trk", lit "public_jobs_jobs-search-bar_search-submit");
                  (lit "position", lit "1");
                  (lit "pageNum", lit "0")]).
  assert (Hitems : exists fields, UrlParse.urlencode_items params = inr fields).
  { apply urlencode_items_defined. unfold params.
    repeat constructor; cbn [fst snd];
      solve [ exists bt; exact Hbt | exists bl; exact Hbl
            | eapply literal_encodes; vm_compute; reflexivity ]. }
  destruct Hitems as [fields Hfields].
  assert (Hq : UrlParse.urlencode params = inr (UrlParse.join (lit "&") fields)).
  { unfold UrlParse.urlencode. rewrite Hfields. reflexivity. }
  set (q := UrlParse.join (lit "&") fields) in *.
  destruct (urlencode_chars _ _ Hq) as [Hhash Hmark].
  exists (lit "https://www.linkedin.com/jobs/search" ++ 0x3F :: q).
  split; [|split].
  - unfold Main.encoded_url. cbv zeta. fold params. rewrite Hq. reflexivity.
  - change (lit "https://www.linkedin.com/jobs/search" ++ 0x3F :: q)
      with (lit "https://www.linkedin.com/jobs/search?" ++ q).
    apply startswith_app.
  - unfold UrlParse.urlsplit_query.
    rewrite (split1_plain 0x23).
    + cbn [fst]. rewrite split1_app; [cbn [snd]; apply (urlencode_roundtrip _ _ Hq)|].
      apply mem_false_not_in. vm_compute. reflexivity.
    + intros Hin. apply in_app_or in Hin. destruct Hin as [Hin|[Hin|Hin]].
      * revert Hin. apply mem_false_not_in. vm_compute. reflexivity.
      * discriminate Hin.
      * exact (Hhash Hin).
Qed.

Lemma valid_str_check s :
  forallb (fun c => c <? 0x110000) s = true -> valid_str s.
Proof.
  intros H. apply Forall_forall. intros c Hc.
  rewrite forallb_forall in H. apply N.ltb_lt, H, Hc.
Defined.

Lemma no_surrogates_check s :
  forallb (fun c => negb (Unicode.is_surrogate c)) s = true -> no_surrogates s.
Proof.
  intros H. apply Forall_forall. intros c Hc.
  rewrite forallb_forall in H. apply negb_true_iff, H, Hc.
Defined.

Lemma seed_url_carries_the_query_witness :
  exists url,
    Main.encoded_url (fun base _ => base) (lit "Data Engineer") (lit "Lagos, Nigeria")
    = inr url
    /\ UrlParse.startswith (lit "https://www.linkedin.com/jobs/search?") url = true
    /\ UrlParse.parse_qsl (UrlParse.urlsplit_query url)
       = Some [(lit "keywords", lit "Data Engineer");
               (lit "location", lit "Lagos, Nigeria");
               (lit "trk", lit "public_jobs_jobs-search-bar_search-submit");
               (lit "position", lit "1");
               (lit "pageNum", lit "0")].
Proof.
  apply (seed_url_carries_the_query (fun base _ => base)
           (lit "Data Engineer") (lit "Lagos, Nigeria"));
    first [apply valid_str_check | apply no_surrogates_check];
    vm_compute; reflexivity.
Defined.

(** The URL for the title [Data Engineer] and the location
    [Lagos, Nigeria]. *)
Example seed_url_example :
  Main.encoded_url (fun base _ => base) (lit "Data Engineer") (lit "Lagos, Nigeria")
  = inr (lit "https://www.linkedin.com/jobs/search?keywords=Data+Engineer&location=Lagos%2C+Nigeria&trk=public_jobs_jobs-search-bar_search-submit&position=1&pageNum=0").
Proof. vm_compute. reflexivity. Qed.

(** C1 does not hold for every [str]: a title that holds a lone surrogate
    is a [str], [urlencode] raises [UnicodeEncodeError] on it, and no URL
    is built. *)
Lemma seed_url_fails_on_surrogate :
  valid_str [0xD800]
  /\ valid_str (lit "Lagos")
  /\ Main.encoded_url (fun base _ => base) [0xD800] (lit "Lagos")
     = inl (UnicodeEncodeError 0xD800)
  /\ ~ (exists url,
           Main.encoded_url (fun base _ => base) [0xD800] (lit "Lagos") = inr url).
Proof.
  split; [apply valid_str_check; vm_compute; reflexivity|].
  split; [apply valid_str_check; vm_compute; reflexivity|].
  split; [vm_compute; reflexivity|].
  intros [url H]. vm_compute in H. discriminate H.
Qed.

(** ** The entry point *)

(** C10: under any behaviour of the crawler, two runs of [main] that
    differ in [data_name] only issue the same operations, with the same
    seed URL, up to the export; if they reach the export, each names the
    file [data_name.csv], and that operation is the only difference. *)
Theorem data_name_only_names_the_file
  (W : Type) (h : env crawlerSig W) (resolve : str -> str -> str)
  title location d1 d2 w :
  let r1 := exec h (Main.main resolve title location d1) w in
  let r2 := exec h (Main.main resolve title location d2) w in
  exists common,
    existsb is_export common = false
    /\ (forall url, Main.encoded_url resolve title location = inr url ->
                    common = [crawler_run [url]])
    /\ (forall e, Main.encoded_url resolve title location = inl e -> common = [])
    /\ (calls r1 = common /\ calls r2 = common
        /\ outcome r1 = outcome r2 /\ final r1 = final r2
        \/ calls r1 = common ++ [crawler_export_data (d1 ++ lit ".csv")]
           /\ calls r2 = common ++ [crawler_export_data (d2 ++ lit ".csv")]).
Proof.
  cbv zeta. unfold Main.main.
  destruct (Main.encoded_url resolve title location) as [e|url]; cbn.
  - exists []. split; [reflexivity|]. split; [discriminate|].
    split; [reflexivity|]. left. repeat split.
  - destruct (h (crawler_run [url]) w) as [[e|[]] w1]; cbn.
    + exists [crawler_run [url]]. split; [reflexivity|].
      split; [intros ? [= <-]; reflexivity|]. split; [discriminate|].
      left. repeat split.
    + exists [crawler_run [url]]. split; [reflexivity|].
      split; [intros ? [= <-]; reflexivity|]. split; [discriminate|].
      right.
      destruct (h (crawler_export_data (d1 ++ lit ".csv")) w1) as [[?|?] ?];
        destruct (h (crawler_export_data (d2 ++ lit ".csv")) w1) as [[?|?] ?];
        split; reflexivity.
Qed.

(** ** Further properties of the extraction handler *)

Lemma class_matches_filter_nil cls s :
  filter (fun c => negb (Re.class_matches cls c)) s = []
  <-> Forall (fun c => Re.class_matches cls c = true) s.
Proof.
  induction s as [|c s IH]; cbn [filter].
  - split; [constructor | reflexivity].
  - destruct (Re.class_matches cls c) eqn:E; cbn [negb].
    + rewrite IH. split; [intros H; constructor; assumption
                         | intros H; inversion H; assumption].
    + split; [discriminate | intros H; inversion H; congruence].
Qed.

Lemma normalized_filter s :
  normalized s
  = filter (fun c => negb (Re.class_matches Routes.whitespace_class c)) s.
Proof.
  unfold normalized, non_whitespace_runs.
  rewrite runs_outside_concat, app_nil_l. apply filter_whitespace_class.
Qed.

(** X1: the normalized text is empty exactly when the raw text is made of
    whitespace only (the empty text included). *)
Theorem normalized_empty_iff_blank (raw : str) :
  Re.sub Routes.whitespace_class [] (Some raw) = inr []
  <-> Forall (fun c => Re.class_matches Routes.whitespace_class c = true) raw.
Proof.
  rewrite sub_normalized, normalized_filter, <- class_matches_filter_nil.
  split; [intros [= H]; exact H | intros ->; reflexivity].
Qed.

(** X2: whitespace between two texts leaves no trace: with or without a
    run of whitespace between them, two texts normalize to the
    concatenation of their normalized forms, which is never longer than
    the raw text. *)
Theorem normalization_glues_across_whitespace (a b ws : str) :
  Forall (fun c => Unicode.isspace c = true) ws ->
  exists x y,
    Re.sub Routes.whitespace_class [] (Some a) = inr x
    /\ Re.sub Routes.whitespace_class [] (Some b) = inr y
    /\ Re.sub Routes.whitespace_class [] (Some (a ++ ws ++ b)) = inr (x ++ y)
    /\ Re.sub Routes.whitespace_class [] (Some (a ++ b)) = inr (x ++ y)
    /\ (List.length x <= List.length a)%nat.
Proof.
  intros Hws. exists (normalized a), (normalized b).
  rewrite !sub_normalized, !normalized_filter, !filter_app.
  assert (Hnil : filter (fun c => negb (Re.class_matches Routes.whitespace_class c)) ws
                 = []).
  { apply class_matches_filter_nil. eapply Forall_impl; [|exact Hws].
    intros c Hc. rewrite whitespace_class_isspace. exact Hc. }
  rewrite Hnil. repeat split. apply filter_length_le.
Qed.

Lemma normalization_glues_across_whitespace_witness :
  Re.sub Routes.whitespace_class [] (Some (lit "Senior" ++ ([0xA] ++ lit "  ") ++ lit "Engineer"))
  = inr (lit "SeniorEngineer")
  /\ Re.sub Routes.whitespace_class [] (Some (lit "Senior" ++ lit "Engineer"))
     = inr (lit "SeniorEngineer").
Proof.
  assert (Hws : Forall (fun c => Unicode.isspace c = true) ([0xA] ++ lit "  "))
    by (repeat constructor).
  destruct (normalization_glues_across_whitespace (lit "Senior") (lit "Engineer")
              ([0xA] ++ lit "  ") Hws) as (x & y & Hx & Hy & H1 & H2 & _).
  vm_compute in Hx. vm_compute in Hy.
  apply inr_eq in Hx. apply inr_eq in Hy. subst x y.
  split; [exact H1 | exact H2].
Defined.

(** X3: a blank title does not stop the handler: when the wait and the
    reads succeed and the title text is whitespace only, one record is
    pushed and its [title] is the empty string. *)
Theorem blank_title_is_emitted (key : str -> str) ctx w t c p :
  load_state (page w) (lit "load") = inr tt ->
  text_content (page w) Routes.title_locator = inr (Some t) ->
  text_content (page w) Routes.company_locator = inr (Some c) ->
  text_content (page w) Routes.time_locator = inr (Some p) ->
  Forall (fun ch => Re.class_matches Routes.whitespace_class ch = true) t ->
  let r := exec (crawlee key) (Routes.listing_handler ctx) w in
  outcome r = inr tt
  /\ exists d,
      dataset (final r) = dataset w ++ [d]
      /\ lookup (lit "title") d = Some (PyStr []).
Proof.
  intros Hl Ht Hc Hp Hblank.
  assert (Hn : normalized t = []).
  { rewrite normalized_filter. apply class_matches_filter_nil, Hblank. }
  run_listing. split; [reflexivity|].
  eexists. split; [reflexivity|]. rewrite Hn. reflexivity.
Qed.

Lemma blank_title_is_emitted_witness :
  let r := exec (crawlee plain_key) (Routes.listing_handler job_context) (fresh blank_title_page) in
  outcome r = inr tt
  /\ exists d,
      dataset (final r) = dataset (fresh blank_title_page) ++ [d]
      /\ lookup (lit "title") d = Some (PyStr []).
Proof.
  apply (blank_title_is_emitted plain_key job_context (fresh blank_title_page)
           ([0xA] ++ lit "   " ++ [0x9]) (lit "Acme") (lit "Acme")
           eq_refl eq_refl eq_refl eq_refl).
  repeat constructor.
Defined.

(** X4: when the wait and the three reads return but one of the texts is
    [None], the handler raises [TypeError] after all three reads, pushes
    nothing and leaves the state as it was. *)
Theorem missing_text_is_type_error (key : str -> str) ctx w t c p :
  load_state (page w) (lit "load") = inr tt ->
  text_content (page w) Routes.title_locator = inr t ->
  text_content (page w) Routes.company_locator = inr c ->
  text_content (page w) Routes.time_locator = inr p ->
  t = None \/ c = None \/ p = None ->
  let r := exec (crawlee key) (Routes.listing_handler ctx) w in
  outcome r = inl TypeError
  /\ final r = w
  /\ calls r = [page_wait_for_load_state (lit "load");
                locator_text_content Routes.title_locator;
                locator_text_content Routes.company_locator;
                locator_text_content Routes.time_locator].
Proof.
  intros Hl Ht Hc Hp Hnone.
  unfold Routes.listing_handler; cbn. rewrite Hl; cbn. rewrite Ht; cbn.
  rewrite Hc; cbn. rewrite Hp; cbn. unfold Re.sub.
  destruct t as [t|]; [destruct c as [c|]; [destruct p as [p|]|]|];
    cbn; unfold after; cbn; try (repeat split; reflexivity).
  exfalso. destruct Hnone as [H|[H|H]]; discriminate H.
Qed.

Lemma missing_text_is_type_error_witness :
  let r := exec (crawlee plain_key) (Routes.listing_handler job_context) (fresh textless_page) in
  outcome r = inl TypeError /\ dataset (final r) = [].
Proof.
  pose proof (missing_text_is_type_error plain_key job_context (fresh textless_page)
                (Some (lit "Acme")) None (Some (lit "Acme"))
                eq_refl eq_refl eq_refl eq_refl (or_intror (or_introl eq_refl))) as H.
  cbv zeta in H. destruct H as (Ho & Hf & _).
  split; [exact Ho | rewrite Hf; reflexivity].
Defined.

(** X5: the first operation that raises ends the handler with that very
    exception, and no later page query is issued: a failed wait stops
    before any read, a failed title read before the company read, and so
    on. *)
Theorem first_failure_stops_the_handler (key : str -> str) ctx w e :
  let r := exec (crawlee key) (Routes.listing_handler ctx) w in
  let wait := page_wait_for_load_state (lit "load") in
  let title := locator_text_content Routes.title_locator in
  let company := locator_text_content Routes.company_locator in
  let time := locator_text_content Routes.time_locator in
  (load_state (page w) (lit "load") = inl e ->
   outcome r = inl e /\ calls r = [wait])
  /\ (forall t c,
        load_state (page w) (lit "load") = inr tt ->
        (text_content (page w) Routes.title_locator = inl e ->
         outcome r = inl e /\ calls r = [wait; title])
        /\ (text_content (page w) Routes.title_locator = inr t ->
            text_content (page w) Routes.company_locator = inl e ->
            outcome r = inl e /\ calls r = [wait; title; company])
        /\ (text_content (page w) Routes.title_locator = inr t ->
            text_content (page w) Routes.company_locator = inr c ->
            text_content (page w) Routes.time_locator = inl e ->
            outcome r = inl e /\ calls r = [wait; title; company; time])).
Proof.
  cbv zeta. unfold Routes.listing_handler; cbn. split.
  - intros H. rewrite H. cbn. split; reflexivity.
  - intros t c Hl. rewrite Hl; cbn. split; [|split].
    + intros Ht. rewrite Ht; cbn. unfold after; cbn. split; reflexivity.
    + intros Ht Hc. rewrite Ht; cbn. rewrite Hc; cbn. unfold after; cbn.
      split; reflexivity.
    + intros Ht Hc Hp. rewrite Ht; cbn. rewrite Hc; cbn. rewrite Hp; cbn.
      unfold after; cbn. split; reflexivity.
Qed.

(** X6: under any environment the handler issues no discovery operation
    (no [evaluate_all], no [add_requests]), at most five operations in
    all, and [push_data] at most once and only as its last operation. *)
Theorem extraction_only_reads_and_pushes (W : Type) (h : env contextSig W) ctx w :
  let r := exec h (Routes.listing_handler ctx) w in
  existsb is_discovery (calls r) = false
  /\ existsb is_push (removelast (calls r)) = false
  /\ (List.length (calls r) <= 5)%nat.
Proof.
  cbv zeta. listing_cases_env h w;
    try (unfold Re.sub; cbn;
         destruct x0 as [t|]; cbn;
         [ destruct x1 as [c|]; cbn;
           [ destruct x2 as [p|]; cbn;
             [ match goal with
               | |- context [h (context_push_data ?d) ?w4] =>
                   answer h (context_push_data d) w4
               end | ] | ] | ]);
    unfold after; cbn; repeat split; lia.
Qed.

(** ** Further properties of the discovery handler *)

(** X7: when the query for the links raises, the handler ends with that
    exception, never calls [add_requests], and leaves the queue and the
    sink as they were. *)
Theorem discovery_failure_enqueues_nothing
  (key : str -> str) (valid : str -> bool) ctx w e :
  evaluate_all (page w) Routes.results_links Routes.links_to_hrefs = inl e ->
  let r := exec (crawlee key) (Routes.default_handler valid ctx) w in
  outcome r = inl e
  /\ final r = w
  /\ calls r = [locator_evaluate_all Routes.results_links Routes.links_to_hrefs].
Proof.
  intros H. cbv zeta. rewrite default_handler_run, H. repeat split.
Qed.

Lemma discovery_failure_enqueues_nothing_witness :
  let r := exec (crawlee plain_key) (Routes.default_handler http_scheme seed_context)
                (fresh broken_results_page) in
  outcome r = inl PlaywrightError /\ request_queue (final r) = [].
Proof.
  pose proof (discovery_failure_enqueues_nothing plain_key http_scheme seed_context
                (fresh broken_results_page) PlaywrightError eq_refl) as H.
  cbv zeta in H. destruct H as (Ho & Hf & _).
  split; [exact Ho | rewrite Hf; reflexivity].
Defined.

(** X8: the handler does not deduplicate, the queue does: one request per
    href is submitted, in order, duplicates included; the queue grows by
    requests of the submission whose unique keys are distinct and were
    not held, and afterwards it holds the key of every submitted
    request. *)
Theorem queue_takes_each_key_once
  (key : str -> str) (valid : str -> bool) ctx w hrefs :
  evaluate_all (page w) Routes.results_links Routes.links_to_hrefs = inr hrefs ->
  forallb valid hrefs = true ->
  let r := exec (crawlee key) (Routes.default_handler valid ctx) w in
  exists submitted new,
    calls r
    = [locator_evaluate_all Routes.results_links Routes.links_to_hrefs;
       context_add_requests submitted]
    /\ map url submitted = hrefs
    /\ request_queue (final r) = request_queue w ++ new
    /\ incl new submitted
    /\ NoDup (map (unique_key key) new)
    /\ (forall rq, In rq new ->
                   ~ In (unique_key key rq) (map (unique_key key) (request_queue w)))
    /\ (forall rq, In rq submitted ->
                   In (unique_key key rq)
                      (map (unique_key key) (request_queue (final r)))).
Proof.
  intros H Hv. cbv zeta. rewrite default_handler_run, H, Hv. cbn.
  eexists; eexists. split; [reflexivity|].
  split; [rewrite map_map; cbn; apply map_id|].
  split; [reflexivity|]. split; [apply accepted_incl|].
  split; [apply accepted_fresh|]. split; [apply accepted_fresh|].
  intros rq Hrq. rewrite map_app. apply accepted_covers, Hrq.
Qed.

Lemma queue_takes_each_key_once_witness :
  let r := exec (crawlee plain_key) (Routes.default_handler http_scheme seed_context)
                (fresh results_page) in
  exists submitted,
    calls r
    = [locator_evaluate_all Routes.results_links Routes.links_to_hrefs;
       context_add_requests submitted]
    /\ List.length submitted = 3%nat
    /\ map url (request_queue (final r))
       = [lit "https://www.linkedin.com/jobs/view/1";
          lit "https://www.linkedin.com/jobs/view/2"].
Proof.
  pose proof (queue_takes_each_key_once plain_key http_scheme seed_context
                (fresh results_page) _ eq_refl eq_refl) as H.
  cbv zeta in H. destruct H as (submitted & new & Hc & Hu & _).
  exists submitted. split; [exact Hc|].
  split; [rewrite <- (length_map url), Hu; reflexivity | vm_compute; reflexivity].
Defined.

(** X15: when some href is not a valid URL, [Request.from_url] raises
    while the list of requests is built: the handler ends with the
    validation error, never calls [add_requests], and leaves the state
    as it was, the valid hrefs of the page included. *)
Theorem invalid_href_submits_nothing
  (key : str -> str) (valid : str -> bool) ctx w hrefs :
  evaluate_all (page w) Routes.results_links Routes.links_to_hrefs = inr hrefs ->
  forallb valid hrefs = false ->
  let r := exec (crawlee key) (Routes.default_handler valid ctx) w in
  outcome r = inl ValidationError
  /\ final r = w
  /\ calls r = [locator_evaluate_all Routes.results_links Routes.links_to_hrefs].
Proof.
  intros H Hv. cbv zeta. rewrite default_handler_run, H, Hv. repeat split.
Qed.

Lemma invalid_href_submits_nothing_witness :
  let r := exec (crawlee plain_key) (Routes.default_handler http_scheme seed_context)
                (fresh unlinked_results_page) in
  outcome r = inl ValidationError /\ final r = fresh unlinked_results_page.
Proof.
  pose proof (invalid_href_submits_nothing plain_key http_scheme seed_context
                (fresh unlinked_results_page) _ eq_refl eq_refl) as H.
  cbv zeta in H. destruct H as (Ho & Hf & _).
  split; [exact Ho | exact Hf].
Defined.

(** ** The router *)

(** X9: the two stages compose: a request without a label goes to
    [default_handler], and every request that [default_handler] queues
    goes, by its label, to [listing_handler], whatever URL it carries and
    whatever URL it is loaded from. *)
Theorem queued_requests_reach_listing_handler
  (key : str -> str) (valid : str -> bool) ctx w hrefs :
  evaluate_all (page w) Routes.results_links Routes.links_to_hrefs = inr hrefs ->
  let r := exec (crawlee key) (Routes.default_handler valid ctx) w in
  exists new,
    request_queue (final r) = request_queue w ++ new
    /\ Forall (fun rq =>
                 forall ctx',
                   label (request ctx') = label rq ->
                   Routes.router valid ctx' = Routes.listing_handler ctx') new
    /\ forall ctx', label (request ctx') = None ->
                    Routes.router valid ctx' = Routes.default_handler valid ctx'.
Proof.
  intros H. cbv zeta. rewrite default_handler_run, H.
  assert (Hdefault : forall ctx', label (request ctx') = None ->
                       Routes.router valid ctx' = Routes.default_handler valid ctx').
  { intros ctx' Hl. unfold Routes.router. rewrite Hl. reflexivity. }
  destruct (forallb valid hrefs); cbn.
  - eexists. split; [reflexivity|]. split; [|exact Hdefault].
    apply Forall_forall. intros rq Hin ctx' Hl.
    apply accepted_incl in Hin.
    apply in_map_iff in Hin. destruct Hin as (href & <- & _).
    unfold Routes.router. rewrite Hl. cbn [label].
    destruct (list_eq_dec N.eq_dec (lit "job_listing") (lit "job_listing"));
      [reflexivity | contradiction].
  - exists []. split; [symmetry; apply app_nil_r|].
    split; [constructor | exact Hdefault].
Qed.

Lemma queued_requests_reach_listing_handler_witness :
  Routes.router http_scheme job_context = Routes.listing_handler job_context.
Proof.
  pose proof (queued_requests_reach_listing_handler plain_key http_scheme seed_context
                (fresh results_page) _ eq_refl) as H.
  cbv zeta in H. destruct H as (new & Hq & Hall & _).
  vm_compute in Hq. subst new. rewrite Forall_forall in Hall.
  refine (Hall _ (or_introl eq_refl) job_context _). reflexivity.
Defined.

(** ** Further properties of the entry point *)

Lemma utf8_char_undefined c :
  Unicode.utf8_encode_char c = None
  <-> Unicode.is_surrogate c = true \/ 0x110000 <= c.
Proof.
  unfold Unicode.utf8_encode_char, Unicode.is_surrogate.
  destruct (N.ltb_spec c 0x80); [split; [discriminate|]|].
  { intros [H0|H0]; [|lia]. apply andb_prop in H0. destruct H0 as [H0 _].
    apply N.leb_le in H0. lia. }
  destruct (N.ltb_spec c 0x800); [split; [discriminate|]|].
  { intros [H1|H1]; [|lia]. apply andb_prop in H1. destruct H1 as [H1 _].
    apply N.leb_le in H1. lia. }
  destruct (N.ltb_spec c 0x10000).
  { destruct ((0xD800 <=? c) && (c <=? 0xDFFF)) eqn:E.
    - split; [left; reflexivity | reflexivity].
    - split; [discriminate | intros [H2|H2]; [discriminate | lia]]. }
  destruct (N.ltb_spec c 0x110000).
  - split; [discriminate|]. intros [H3|H3]; [|lia].
    apply andb_prop in H3. destruct H3 as [_ H3]. apply N.leb_le in H3. lia.
  - split; [right; assumption | reflexivity].
Qed.

Lemma encode_cons_cases c s :
  Unicode.encode (c :: s)
  = match Unicode.utf8_encode_char c with
    | None => inl (UnicodeEncodeError c)
    | Some b => match Unicode.encode s with
                | inl e => inl e
                | inr r => inr (b ++ r)
                end
    end.
Proof.
  cbn [Unicode.encode]. destruct (Unicode.utf8_encode_char c); [|reflexivity].
  destruct (Unicode.encode s); reflexivity.
Qed.

(** A failed encoding reports a code point of the string that UTF-8
    cannot encode. *)
Lemma encode_failure s e :
  Unicode.encode s = inl e ->
  exists c, e = UnicodeEncodeError c /\ In c s
            /\ (Unicode.is_surrogate c = true \/ 0x110000 <= c).
Proof.
  induction s as [|c s IH]; [discriminate|].
  rewrite encode_cons_cases.
  destruct (Unicode.utf8_encode_char c) as [b|] eqn:Hc.
  - destruct (Unicode.encode s) as [e'|r]; [|discriminate].
    intros [= <-]. destruct (IH eq_refl) as (x & -> & Hin & Hx).
    exists x. repeat split; [right; exact Hin | exact Hx].
  - intros [= <-]. exists c. repeat split; [left; reflexivity|].
    apply utf8_char_undefined, Hc.
Qed.

Lemma encode_success s bs : Unicode.encode s = inr bs -> scalar_text s.
Proof.
  revert bs; induction s as [|c s IH]; intros bs H.
  - split; constructor.
  - apply encode_cons in H. destruct H as (b & r & Hb & Hr & _).
    destruct (IH _ Hr) as [Hv Hs].
    assert (Hc : ~ (Unicode.is_surrogate c = true \/ 0x110000 <= c)).
    { intros Hu. apply utf8_char_undefined in Hu. congruence. }
    split; constructor; try assumption.
    + destruct (N.lt_ge_cases c 0x110000); [assumption|]. exfalso. apply Hc. right. assumption.
    + destruct (Unicode.is_surrogate c); [exfalso; apply Hc; left|]; reflexivity.
Qed.

Lemma quote_plus_cases s :
  UrlParse.quote_plus s []
  = match Unicode.encode s with
    | inl e => inl e
    | inr bs => inr (flat_map quoted_octet bs)
    end.
Proof.
  destruct (Unicode.encode s) as [e|bs] eqn:He; [|apply quote_plus_spec, He].
  destruct s as [|c s]; [discriminate He|].
  unfold UrlParse.quote_plus, UrlParse.quote. rewrite He.
  destruct (negb (UrlParse.mem 0x20 (c :: s))); reflexivity.
Qed.

(** The query of the seed URL for the encoded title [bt] and location
    [bl]. *)
Lemma encoded_url_cases (resolve : str -> str -> str) title location :
  Main.encoded_url resolve title location
  = match Unicode.encode title with
    | inl e => inl e
    | inr bt =>
        match Unicode.encode location with
        | inl e => inl e
        | inr bl =>
            inr (lit "https://www.linkedin.com/jobs/search?keywords="
                 ++ flat_map quoted_octet bt
                 ++ lit "&location="
                 ++ flat_map quoted_octet bl
                 ++ lit "&trk=public_jobs_jobs-search-bar_search-submit&position=1&pageNum=0")
        end
    end.
Proof.
  unfold Main.encoded_url, UrlParse.urlencode. cbv zeta.
  cbn [UrlParse.urlencode_items].
  rewrite (quote_plus_cases title), (quote_plus_cases location).
  replace (UrlParse.quote_plus (lit "keywords") []) with (@inr exn _ (lit "keywords"))
    by (vm_compute; reflexivity).
  replace (UrlParse.quote_plus (lit "location") []) with (@inr exn _ (lit "location"))
    by (vm_compute; reflexivity).
  replace (UrlParse.quote_plus (lit "trk") []) with (@inr exn _ (lit "trk"))
    by (vm_compute; reflexivity).
  replace (UrlParse.quote_plus (lit "public_jobs_jobs-search-bar_search-submit") [])
    with (@inr exn _ (lit "public_jobs_jobs-search-bar_search-submit"))
    by (vm_compute; reflexivity).
  replace (UrlParse.quote_plus (lit "position") []) with (@inr exn _ (lit "position"))
    by (vm_compute; reflexivity).
  replace (UrlParse.quote_plus (lit "1") []) with (@inr exn _ (lit "1"))
    by (vm_compute; reflexivity).
  replace (UrlParse.quote_plus (lit "pageNum") []) with (@inr exn _ (lit "pageNum"))
    by (vm_compute; reflexivity).
  replace (UrlParse.quote_plus (lit "0") []) with (@inr exn _ (lit "0"))
    by (vm_compute; reflexivity).
  cbn [bind ret Monad_either].
  destruct (Unicode.encode title) as [e|bt]; [reflexivity|].
  destruct (Unicode.encode location) as [e|bl]; [reflexivity|].
  cbn [bind ret Monad_either UrlParse.join]. f_equal.
Qed.

Lemma scalar_text_encodes s : scalar_text s -> exists bs, Unicode.encode s = inr bs.
Proof. intros [Hv Hs]. apply encode_defined; assumption. Qed.

Lemma encoded_url_scalar (resolve : str -> str -> str) title location url :
  Main.encoded_url resolve title location = inr url ->
  scalar_text title /\ scalar_text location.
Proof.
  rewrite encoded_url_cases.
  destruct (Unicode.encode title) as [e|bt] eqn:Ht; [discriminate|].
  destruct (Unicode.encode location) as [e|bl] eqn:Hl; [discriminate|].
  intros _. split; [apply (encode_success _ _ Ht) | apply (encode_success _ _ Hl)].
Qed.

(** X10: the seed URL is built exactly when the title and the location
    hold Unicode scalar values only; otherwise [urlencode] raises. *)
Theorem seed_url_built_iff_scalar_text (resolve : str -> str -> str) title location :
  (exists url, Main.encoded_url resolve title location = inr url)
  <-> scalar_text title /\ scalar_text location.
Proof.
  split.
  - intros [url H]. apply (encoded_url_scalar resolve _ _ url H).
  - intros [Ht Hl]. rewrite encoded_url_cases.
    destruct (scalar_text_encodes _ Ht) as [bt ->].
    destruct (scalar_text_encodes _ Hl) as [bl ->].
    eexists. reflexivity.
Qed.

(** X11: when the title or the location cannot be encoded, [main] raises
    [UnicodeEncodeError] for one of their code points (a surrogate or a
    value above U+10FFFF) before it issues any operation: the crawler is
    never run and nothing is exported, under any environment. *)
Theorem unencodable_input_stops_main
  (W : Type) (h : env crawlerSig W) (resolve : str -> str -> str)
  title location data_name w :
  ~ (scalar_text title /\ scalar_text location) ->
  let r := exec h (Main.main resolve title location data_name) w in
  calls r = []
  /\ final r = w
  /\ exists c,
      outcome r = inl (UnicodeEncodeError c)
      /\ In c (title ++ location)
      /\ (Unicode.is_surrogate c = true \/ 0x110000 <= c).
Proof.
  intros Hbad. cbv zeta. unfold Main.main.
  destruct (Main.encoded_url resolve title location) as [e|url] eqn:Hu.
  - cbn. split; [reflexivity|]. split; [reflexivity|].
    rewrite encoded_url_cases in Hu.
    destruct (Unicode.encode title) as [e1|bt] eqn:Ht.
    + injection Hu as <-. destruct (encode_failure _ _ Ht) as (c & -> & Hin & Hc).
      exists c. repeat split; [apply in_or_app; left; exact Hin | exact Hc].
    + destruct (Unicode.encode location) as [e2|bl] eqn:Hl; [|discriminate].
      injection Hu as <-. destruct (encode_failure _ _ Hl) as (c & -> & Hin & Hc).
      exists c. repeat split; [apply in_or_app; right; exact Hin | exact Hc].
  - exfalso. apply Hbad. apply (encoded_url_scalar resolve _ _ url Hu).
Qed.

Lemma is_scalar_text_surrogate : ~ scalar_text [0xD800].
Proof.
  intros [_ Hs]. inversion Hs as [|? ? Hc _]. vm_compute in Hc. discriminate Hc.
Defined.

Lemma unencodable_input_stops_main_witness :
  let r := exec quiet_crawler
             (Main.main (fun base _ => base) [0xD800] (lit "Lagos") (lit "jobs")) tt in
  calls r = [] /\ outcome r = inl (UnicodeEncodeError 0xD800).
Proof.
  pose proof (unencodable_input_stops_main unit quiet_crawler (fun base _ => base)
                [0xD800] (lit "Lagos") (lit "jobs") tt
                (fun H => is_scalar_text_surrogate (proj1 H))) as H.
  cbv zeta in H. destruct H as (Hc & _ & _).
  split; [exact Hc | vm_compute; reflexivity].
Defined.

(** X12: once the seed URL is built, [main] runs the crawler on that one
    URL first; if the run raises, [main] ends with that exception and
    never exports; if it returns, [main] exports to [data_name.csv] next
    and ends as the export does. *)
Theorem export_follows_a_completed_crawl
  (W : Type) (h : env crawlerSig W) (resolve : str -> str -> str)
  title location data_name w url :
  Main.encoded_url resolve title location = inr url ->
  let r := exec h (Main.main resolve title location data_name) w in
  let crawl := h (crawler_run [url]) w in
  let export := crawler_export_data (data_name ++ lit ".csv") in
  (forall e, fst crawl = inl e ->
             outcome r = inl e /\ calls r = [crawler_run [url]] /\ final r = snd crawl)
  /\ (fst crawl = inr tt ->
      calls r = [crawler_run [url]; export]
      /\ outcome r = fst (h export (snd crawl))
      /\ final r = snd (h export (snd crawl))).
Proof.
  intros Hu. cbv zeta. unfold Main.main. rewrite Hu. cbn.
  destruct (h (crawler_run [url]) w) as [[e|[]] w1]; cbn.
  - split; [intros e' [= <-]; repeat split | discriminate].
  - split; [discriminate|]. intros _.
    destruct (h (crawler_export_data (data_name ++ lit ".csv")) w1) as [[e|[]] w2];
      cbn; repeat split.
Qed.

Lemma export_follows_a_completed_crawl_witness :
  let r := exec blocked_crawler
             (Main.main (fun base _ => base) (lit "Data Engineer") (lit "Lagos")
                        (lit "jobs")) tt in
  outcome r = inl PlaywrightError /\ existsb is_export (calls r) = false.
Proof.
  pose proof (export_follows_a_completed_crawl unit blocked_crawler
                (fun base _ => base) (lit "Data Engineer") (lit "Lagos") (lit "jobs")
                tt _ eq_refl) as H.
  cbv zeta in H. destruct H as (H & _).
  destruct (H PlaywrightError eq_refl) as (Ho & Hc & _).
  split; [exact Ho | rewrite Hc; reflexivity].
Defined.

Lemma encoded_url_query (resolve : str -> str -> str) title location url :
  Main.encoded_url resolve title location = inr url ->
  exists q,
    url = lit "https://www.linkedin.com/jobs/search" ++ 0x3F :: q
    /\ UrlParse.urlencode
         [(lit "keywords", title);
          (lit "location", location);
          (lit "trk", lit "public_jobs_jobs-search-bar_search-submit");
          (lit "position", lit "1");
          (lit "pageNum", lit "0")] = inr q.
Proof.
  unfold Main.encoded_url. cbv zeta.
  destruct (UrlParse.urlencode _) as [e|q]; cbn [bind ret Monad_either];
    [discriminate|].
  intros [= <-]. exists q. split; reflexivity.
Qed.

(** X13: the seed URL determines the search: two searches with the same
    seed URL have the same title and the same location. *)
Theorem seed_url_injective (resolve : str -> str -> str) t1 l1 t2 l2 url :
  Main.encoded_url resolve t1 l1 = inr url ->
  Main.encoded_url resolve t2 l2 = inr url ->
  t1 = t2 /\ l1 = l2.
Proof.
  intros H1 H2.
  apply encoded_url_query in H1. destruct H1 as (q1 & -> & Hq1).
  apply encoded_url_query in H2. destruct H2 as (q2 & Hq & Hq2).
  apply app_inv_head in Hq. injection Hq as <-.
  apply urlencode_roundtrip in Hq1. apply urlencode_roundtrip in Hq2.
  rewrite Hq1 in Hq2. injection Hq2 as <- <-. split; reflexivity.
Qed.

Lemma seed_url_injective_witness :
  lit "Data Engineer" = lit "Data Engineer" /\ lit "Lagos" = lit "Lagos".
Proof.
  apply (seed_url_injective (fun base _ => base)
           (lit "Data Engineer") (lit "Lagos") (lit "Data Engineer") (lit "Lagos") _
           eq_refl eq_refl).
Defined.

Lemma quoted_char_url_char c : quoted_char c = true -> url_char c = true.
Proof.
  unfold quoted_char, url_char, UrlParse.mem. intros H.
  apply existsb_exists in H. destruct H as (x & Hx & Hcx).
  apply N.eqb_eq in Hcx. subst x.
  assert (Hall : forallb (fun x => UrlParse.mem x (UrlParse.always_safe ++ lit "%+=&:/?"))
                         (UrlParse.always_safe ++ [0x2B; 0x25]) = true)
    by (vm_compute; reflexivity).
  rewrite forallb_forall in Hall. apply (Hall c Hx).
Qed.

Lemma literal_url_chars l :
  forallb url_char l = true -> Forall (fun c => url_char c = true) l.
Proof. intros H. apply Forall_forall. apply forallb_forall. exact H. Qed.

Lemma quoted_count bs d :
  Forall (fun b => b < 256) bs -> In d [0x26; 0x3D; 0x23; 0x3F] ->
  count_occ N.eq_dec (flat_map quoted_octet bs) d = 0%nat.
Proof.
  intros Hbs Hd. apply count_occ_not_In.
  apply quoted_no_delimiter; [apply quoted_chars, Hbs | exact Hd].
Qed.

(** X14: whatever the title and the location hold, the seed URL is made of
    unreserved ASCII characters and [%+=&:/?] only (no space, no raw
    non-ASCII character), and it has exactly one [?], four [&] and five
    [=]: the inputs cannot add, drop or split a parameter. *)
Theorem seed_url_shape (resolve : str -> str -> str) title location url :
  Main.encoded_url resolve title location = inr url ->
  Forall (fun c => url_char c = true) url
  /\ count_occ N.eq_dec url 0x3F = 1%nat
  /\ count_occ N.eq_dec url 0x26 = 4%nat
  /\ count_occ N.eq_dec url 0x3D = 5%nat.
Proof.
  rewrite encoded_url_cases.
  destruct (Unicode.encode title) as [e|bt] eqn:Ht; [discriminate|].
  destruct (Unicode.encode location) as [e|bl] eqn:Hl; [discriminate|].
  intros H; apply inr_eq in H; subst url.
  pose proof (encode_octets _ _ Ht) as Hbt. pose proof (encode_octets _ _ Hl) as Hbl.
  split; [|split; [|split]].
  - repeat (apply Forall_app; split);
      try (apply literal_url_chars; vm_compute; reflexivity);
      (eapply Forall_impl; [exact quoted_char_url_char | apply quoted_chars; assumption]).
  - rewrite !count_occ_app, !quoted_count
      by (assumption || (right; right; right; left; reflexivity)).
    vm_compute. reflexivity.
  - rewrite !count_occ_app, !quoted_count by (assumption || (left; reflexivity)).
    vm_compute. reflexivity.
  - rewrite !count_occ_app, !quoted_count
      by (assumption || (right; left; reflexivity)).
    vm_compute. reflexivity.
Qed.

Lemma seed_url_shape_witness :
  exists url,
    Main.encoded_url (fun base _ => base) (lit "C++ & C# dev") (lit "Lagos, Nigeria")
    = inr url
    /\ count_occ N.eq_dec url 0x26 = 4%nat
    /\ count_occ N.eq_dec url 0x3D = 5%nat.
Proof.
  eexists. split; [vm_compute; reflexivity|].
  eapply (seed_url_shape (fun base _ => base)
            (lit "C++ & C# dev") (lit "Lagos, Nigeria")).
  vm_compute. reflexivity.
Defined.
